(** * CISA-KEV-API: the schema inferrer, the catalog loader and the API-key gate

    A shallow embedding of [index.js]: [getDataType],
    [updateKEVCatalogFromCSV], [verifyApiKey], [generateApiKey] and the
    handlers of [POST /api-keys], [POST /update-kev] and [GET /count].

    Conventions of the model:
    - a JavaScript string is a [string] whose characters stand for code units
      below 256 (Node decodes header values as Latin-1; the two regular
      expressions of the program only look at ASCII digits and the dot);
      a value that may be [undefined] is an [option string];
    - the store behind [db.execute] (MySQL through mysql2) is an explicit
      state, and the statements are the ones the program sends; what the
      server and the driver do with them is written out in [run_statement]
      and [db_execute];
    - an [async] function is a function from the world before to a result
      and the world after; a rejected promise is an error message;
    - downloading and parsing the feed (https, fs, csv-parse) is outside the
      program: [updateKEVCatalogFromCSV] takes the outcome of those steps. *)

From Stdlib Require Import Ascii String List Bool Arith Lia NArith.
From stdpp Require Import base option list strings gmap.

Local Open Scope string_scope.
Local Open Scope list_scope.

(** ** JavaScript strings: truthiness and [trim] *)

Module JsString.

(** [!!s] for a string: only the empty string is falsy. *)
Definition truthy (s : string) : bool :=
  match s with
  | EmptyString => false
  | String _ _ => true
  end.

(** WhiteSpace and LineTerminator code units below 256:
    TAB, LF, VT, FF, CR, SP and NBSP. *)
Definition is_space (c : ascii) : bool :=
  let n := nat_of_ascii c in
  ((9 <=? n)%nat && (n <=? 13)%nat) || (n =? 32)%nat || (n =? 160)%nat.

Fixpoint trimStart (s : string) : string :=
  match s with
  | EmptyString => EmptyString
  | String c s' => if is_space c then trimStart s' else s
  end.

Fixpoint trimEnd (s : string) : string :=
  match s with
  | EmptyString => EmptyString
  | String c s' =>
      match trimEnd s' with
      | EmptyString => if is_space c then EmptyString else String c EmptyString
      | t => String c t
      end
  end.

(** [s.trim()] *)
Definition trim (s : string) : string := trimEnd (trimStart s).

Fixpoint all_chars (p : ascii -> bool) (s : string) : bool :=
  match s with
  | EmptyString => true
  | String c s' => p c && all_chars p s'
  end.

(** [a || b] on values that are a string or [undefined]. *)
Definition or_else (a b : option string) : option string :=
  match a with
  | Some s => if truthy s then a else b
  | None => b
  end.

(** [!a] on a value that is a string or [undefined]. *)
Definition falsy (a : option string) : bool :=
  match a with
  | Some s => negb (truthy s)
  | None => true
  end.

End JsString.

(** ** Regular expressions

    The two literals of [getDataType] are anchored at both ends and carry no
    flag, so [re.test(s)] is a match of the whole of [s].  The matcher works
    by derivatives. *)

Module Regex.

Inductive regex : Type :=
| Void : regex
| Eps : regex
| Digit : regex                       (* \d : 0-9 *)
| Lit : ascii -> regex                (* an escaped literal, as in \. *)
| Alt : regex -> regex -> regex
| Seq : regex -> regex -> regex
| Star : regex -> regex.

(** [r+] *)
Definition Plus (r : regex) : regex := Seq r (Star r).

Definition is_digit (c : ascii) : bool :=
  let n := nat_of_ascii c in (48 <=? n)%nat && (n <=? 57)%nat.

Fixpoint nullable (r : regex) : bool :=
  match r with
  | Void => false
  | Eps => true
  | Digit => false
  | Lit _ => false
  | Alt r1 r2 => nullable r1 || nullable r2
  | Seq r1 r2 => nullable r1 && nullable r2
  | Star _ => true
  end.

Fixpoint deriv (c : ascii) (r : regex) : regex :=
  match r with
  | Void => Void
  | Eps => Void
  | Digit => if is_digit c then Eps else Void
  | Lit d => if Ascii.eqb c d then Eps else Void
  | Alt r1 r2 => Alt (deriv c r1) (deriv c r2)
  | Seq r1 r2 =>
      if nullable r1
      then Alt (Seq (deriv c r1) r2) (deriv c r2)
      else Seq (deriv c r1) r2
  | Star r1 => Seq (deriv c r1) (Star r1)
  end.

(** [/^r$/.test(s)] *)
Fixpoint test (r : regex) (s : string) : bool :=
  match s with
  | EmptyString => nullable r
  | String c s' => test (deriv c r) s'
  end.

(** The language of a regular expression, as a relation. *)
Inductive matches : regex -> string -> Prop :=
| m_eps : matches Eps ""
| m_digit c : is_digit c = true -> matches Digit (String c "")
| m_lit c : matches (Lit c) (String c "")
| m_alt_l r1 r2 s : matches r1 s -> matches (Alt r1 r2) s
| m_alt_r r1 r2 s : matches r2 s -> matches (Alt r1 r2) s
| m_seq r1 r2 s1 s2 :
    matches r1 s1 -> matches r2 s2 -> matches (Seq r1 r2) (s1 +:+ s2)
| m_star_nil r : matches (Star r) ""
| m_star_cons r s1 s2 :
    matches r s1 -> matches (Star r) s2 -> matches (Star r) (s1 +:+ s2).

(** [/^\d+$/] *)
Definition re_integer : regex := Plus Digit.

(** [/^\d*\.\d+$/] *)
Definition re_float : regex := Seq (Star Digit) (Seq (Lit ".") (Plus Digit)).

End Regex.

(** ** Schema inferrer *)

Inductive data_type : Type := INT | FLOAT | TEXT.

(** The SQL keyword spliced into the CREATE TABLE text. *)
Definition data_type_sql (t : data_type) : string :=
match t with
| INT => "INT"
| FLOAT => "FLOAT"
| TEXT => "TEXT"
end.

Definition getDataType (sampleValue : string) : data_type :=
if negb (JsString.truthy sampleValue) || String.eqb (JsString.trim sampleValue) ""
then TEXT
else if Regex.test Regex.re_integer (JsString.trim sampleValue) then INT
else if Regex.test Regex.re_float (JsString.trim sampleValue) then FLOAT
else TEXT.

(** [getDataType(records[0][header])]: a property that is absent reads as
    [undefined], which is falsy. *)
Definition getDataType_value (sampleValue : option string) : data_type :=
  match sampleValue with
  | Some s => getDataType s
  | None => TEXT
  end.

(** ** The relational store

    The store is MySQL reached through mysql2.  Its state is the two tables of
    the program, a clock for CURRENT_TIMESTAMP and the AUTO_INCREMENT counter.
    [createApiKeyTable] declares the text columns without a collation, so the
    comparison [=] on them is the one of the database default; the state
    records which one is in force.  The server is assumed reachable and in
    strict SQL mode; the coercion of catalog values to the declared column
    type is not modelled. *)

Inductive Collation : Type :=
| Binary            (* code-unit equality, e.g. utf8mb4_bin *)
| CaseInsensitive.  (* the *_ci collations, MySQL's defaults *)

Definition lower_char (c : ascii) : ascii :=
  let n := nat_of_ascii c in
  if (65 <=? n)%nat && (n <=? 90)%nat then ascii_of_nat (n + 32) else c.

Fixpoint lowercase (s : string) : string :=
  match s with
  | EmptyString => EmptyString
  | String c s' => String (lower_char c) (lowercase s')
  end.

(** [a = b] on two text values under a collation. *)
Definition coll_eqb (c : Collation) (a b : string) : bool :=
  match c with
  | Binary => String.eqb a b
  | CaseInsensitive => String.eqb (lowercase a) (lowercase b)
  end.

(** A row of [api_keys], with the columns of [createApiKeyTable]. *)
Record credential : Type := mk_credential {
  key_id : nat;
  api_key : string;
  app_name : string;
  created_at : nat;
  last_used : option nat;
  is_active : bool
}.

(** A row of [KEV_Catalog]: a value (or NULL) for every column. *)
Definition kev_row : Type := list (string * option string).

Record kev_table : Type := mk_kev_table {
  columns : list (string * data_type);
  rows : list kev_row
}.

Record store : Type := mk_store {
  collation : Collation;
  clock : nat;
  next_id : nat;
  api_keys : list credential;
  KEV_Catalog : option kev_table
}.

(** A bind parameter as JavaScript hands it to [db.execute]. *)
Inductive param : Type :=
| PString (s : string)
| PNull
| PUndefined.

Definition to_param (v : option string) : param :=
  match v with
  | Some s => PString s
  | None => PUndefined
  end.

(** The statements of the program. *)
Inductive statement : Type :=
| CreateKevTable (cols : list (string * data_type))
| TruncateKev
| InsertKev (cols : list string) (values : list param)
| SelectActiveKey (apiKey appName : param)
| TouchKey (apiKey appName : param)
| InsertKey (apiKey appName : param)
| CountCve.

Fixpoint join (sep : string) (l : list string) : string :=
  match l with
  | [] => ""
  | [x] => x
  | x :: rest => x +:+ sep +:+ join sep rest
  end.

Definition backquote (h : string) : string := "`" +:+ h +:+ "`".

(** The SQL text the program passes for each statement. *)
Definition sql_text (st : statement) : string :=
  match st with
  | CreateKevTable cols =>
      "CREATE TABLE IF NOT EXISTS KEV_Catalog (" +:+
      join ", " (map (fun c => backquote (fst c) +:+ " " +:+ data_type_sql (snd c)) cols)
      +:+ ");"
  | TruncateKev => "TRUNCATE TABLE KEV_Catalog"
  | InsertKev cols _ =>
      "INSERT INTO KEV_Catalog (" +:+ join ", " (map backquote cols) +:+
      ") VALUES (" +:+ join ", " (map (fun _ => "?") cols) +:+ ")"
  | SelectActiveKey _ _ =>
      "SELECT * FROM api_keys WHERE api_key = ? AND is_active = TRUE AND app_name = ?"
  | TouchKey _ _ =>
      "UPDATE api_keys SET last_used = CURRENT_TIMESTAMP WHERE api_key = ? AND app_name = ?"
  | InsertKey _ _ => "INSERT INTO api_keys (api_key, app_name) VALUES (?, ?)"
  | CountCve => "SELECT COUNT(cveID) as count FROM KEV_Catalog"
  end.

Definition bind_params (st : statement) : list param :=
  match st with
  | InsertKev _ values => values
  | SelectActiveKey k n | TouchKey k n | InsertKey k n => [k; n]
  | CreateKevTable _ | TruncateKev | CountCve => []
  end.

Definition is_undefined (p : param) : bool :=
  match p with
  | PUndefined => true
  | _ => false
  end.

(** What [db.execute] resolves to: the rows of a SELECT, or nothing. *)
Inductive result : Type :=
| KeyRows (rs : list credential)
| CountRow (count : nat)
| Done.

(** [column = ?] against a bound parameter; a comparison with NULL is never
    true. *)
Definition text_eq_param (c : Collation) (column : string) (p : param) : bool :=
  match p with
  | PString s => coll_eqb c column s
  | _ => false
  end.

Definition key_and_name (c : Collation) (k n : param) (r : credential) : bool :=
  text_eq_param c (api_key r) k && text_eq_param c (app_name r) n.

(** WHERE api_key = ? AND is_active = TRUE AND app_name = ? *)
Definition active_key_and_name (c : Collation) (k n : param) (r : credential) : bool :=
  text_eq_param c (api_key r) k && is_active r && text_eq_param c (app_name r) n.

Definition touch (now : nat) (r : credential) : credential :=
  {| key_id := key_id r; api_key := api_key r; app_name := app_name r;
     created_at := created_at r; last_used := Some now; is_active := is_active r |}.

Definition param_value (p : param) : option string :=
  match p with
  | PString s => Some s
  | _ => None
  end.

Fixpoint assoc {A : Type} (k : string) (l : list (string * A)) : option A :=
  match l with
  | [] => None
  | (k', v) :: rest => if String.eqb k k' then Some v else assoc k rest
  end.

Definition has_column (t : kev_table) (c : string) : bool :=
  match assoc c (columns t) with
  | Some _ => true
  | None => false
  end.

(** The row an INSERT builds: the bound value for a named column, the
    default NULL for the others. *)
Definition new_kev_row (t : kev_table) (cols : list string) (values : list param) : kev_row :=
  map (fun c =>
         (fst c,
          match assoc (fst c) (combine cols values) with
          | Some p => param_value p
          | None => None
          end))
      (columns t).

Definition non_null (c : string) (r : kev_row) : bool :=
  match assoc c r with
  | Some (Some _) => true
  | _ => false
  end.

Definition with_keys (s : store) (n : nat) (ks : list credential) : store :=
  {| collation := collation s; clock := clock s; next_id := n;
     api_keys := ks; KEV_Catalog := KEV_Catalog s |}.

Definition with_catalog (s : store) (t : kev_table) : store :=
  {| collation := collation s; clock := clock s; next_id := next_id s;
     api_keys := api_keys s; KEV_Catalog := Some t |}.

Definition no_table : string := "Table 'KEV_Catalog' doesn't exist".

(** The store's answer to one statement: an error message or a result, and
    the state after it.  A rejected statement changes nothing.  The model
    refuses what the schema and the table at hand show to be wrong (a
    missing table or column, a NULL or a duplicate key, a text too long); a
    server in strict mode refuses more (a value that does not coerce to an
    INT or FLOAT column, a header it does not take as a column name), so
    success here is necessary for success there, not sufficient.  The error
    messages are shortened. *)
Definition run_statement (st : statement) (s : store) : (string + result) * store :=
  match st with
  | CreateKevTable cols =>
      match KEV_Catalog s with
      | Some _ => (inr Done, s)
      | None => (inr Done, with_catalog s {| columns := cols; rows := [] |})
      end
  | TruncateKev =>
      match KEV_Catalog s with
      | Some t => (inr Done, with_catalog s {| columns := columns t; rows := [] |})
      | None => (inl no_table, s)
      end
  | InsertKev cols values =>
      match KEV_Catalog s with
      | Some t =>
          if negb (length cols =? length values)%nat
          then (inl "Column count doesn't match value count", s)
          else if forallb (has_column t) cols
          then (inr Done,
                with_catalog s {| columns := columns t;
                                  rows := rows t ++ [new_kev_row t cols values] |})
          else (inl "Unknown column in 'field list'", s)
      | None => (inl no_table, s)
      end
  | SelectActiveKey k n =>
      (inr (KeyRows (List.filter (active_key_and_name (collation s) k n) (api_keys s))), s)
  | TouchKey k n =>
      (inr Done,
       with_keys s (next_id s)
         (map (fun r => if key_and_name (collation s) k n r then touch (clock s) r else r)
              (api_keys s)))
  | InsertKey k n =>
      match k, n with
      | PString key, PString name =>
          if (64 <? String.length key)%nat
          then (inl "Data too long for column 'api_key'", s)
          else if (100 <? String.length name)%nat
          then (inl "Data too long for column 'app_name'", s)
          else if existsb (fun r => coll_eqb (collation s) (api_key r) key) (api_keys s)
          then (inl "Duplicate entry for key 'api_keys.api_key'", s)
          else (inr Done,
                with_keys s (S (next_id s))
                  (api_keys s ++
                   [{| key_id := next_id s; api_key := key; app_name := name;
                       created_at := clock s; last_used := None; is_active := true |}]))
      | _, _ => (inl "Column cannot be null", s)
      end
  | CountCve =>
      match KEV_Catalog s with
      | Some t =>
          if has_column t "cveID"
          then (inr (CountRow (length (List.filter (non_null "cveID") (rows t)))), s)
          else (inl "Unknown column 'cveID' in 'field list'", s)
      | None => (inl no_table, s)
      end
  end.

Definition undefined_parameter : string :=
  "Bind parameters must not contain undefined. To pass SQL NULL specify JS null".

(** mysql2's [execute]: a statement with an [undefined] bind parameter is
    rejected by the driver and never reaches the server. *)
Definition db_execute (st : statement) (s : store) : (string + result) * store :=
  if existsb is_undefined (bind_params st)
  then (inl undefined_parameter, s)
  else run_statement st s.

(** ** The world of a request: store, statement log, entropy

    [log] lists every statement handed to [db.execute], oldest first, also
    the rejected ones.  [random] is the byte stream behind
    [crypto.randomBytes] and [drawn] counts the bytes taken from it. *)

Record world : Type := mk_world {
  db : store;
  log : list statement;
  random : nat -> Byte.byte;
  drawn : nat
}.

(** A computation that may throw an error message. *)
Definition M (A : Type) : Type := world -> (string + A) * world.

Definition ret {A : Type} (a : A) : M A := fun w => (inr a, w).

Definition throw {A : Type} (msg : string) : M A := fun w => (inl msg, w).

Definition bind {A B : Type} (m : M A) (k : A -> M B) : M B :=
  fun w =>
    match m w with
    | (inr a, w') => k a w'
    | (inl e, w') => (inl e, w')
    end.

Notation "'let*' x ':=' m 'in' k" := (bind m (fun x => k))
  (at level 10, x name, m at level 100, k at level 200).

(** [try { body } catch (error) { handler(error) }] *)
Definition try_catch {A : Type} (body : M A) (handler : string -> world -> A * world)
  : world -> A * world :=
  fun w =>
    match body w with
    | (inr a, w') => (a, w')
    | (inl e, w') => handler e w'
    end.

(** [await db.execute(sql, values)] *)
Definition execute (st : statement) : M result :=
  fun w =>
    let (r, s') := db_execute st (db w) in
    (r, {| db := s'; log := log w ++ [st]; random := random w; drawn := drawn w |}).

(** [crypto.randomBytes(n)] *)
Definition randomBytes (n : nat) : M (list Byte.byte) :=
  fun w =>
    (inr (map (random w) (seq (drawn w) n)),
     {| db := db w; log := log w; random := random w; drawn := drawn w + n |}).

(** ** Catalog loader *)

(** A record of csv-parse with [columns: true]: an object whose own keys are
    the header names, in enumeration order, and whose values are strings. *)
Definition csv_record : Type := list (string * string).

Definition Object_keys (record : csv_record) : list string := map fst record.

(** Lines 118-125: downloading, reading back and parsing the feed either
    throws or yields the records. *)
Inductive feed : Type :=
| FeedError (msg : string)
| FeedRecords (records : list csv_record).

(** [record[header] || null] *)
Definition or_null (v : option string) : param :=
  match v with
  | Some s => if JsString.truthy s then PString s else PNull
  | None => PNull
  end.

Definition insert_values (headers : list string) (record : csv_record) : list param :=
  map (fun header => or_null (assoc header record)) headers.

(** The loop [for (const record of records)]. *)
(** [db.execute(insertQuery, values)] for one record. *)
Definition insert_statement (headers : list string) (record : csv_record) : statement :=
  InsertKev headers (insert_values headers record).

Fixpoint insert_records (headers : list string) (records : list csv_record) : M unit :=
  match records with
  | [] => ret tt
  | record :: rest =>
      let* _ := execute (insert_statement headers record) in
      insert_records headers rest
  end.

Record update_result : Type := mk_update_result {
  success : bool;
  recordCount : nat
}.

Definition empty_feed : string := "No data found in CSV file".

Definition table_columns (first : csv_record) : list (string * data_type) :=
  map (fun header => (header, getDataType_value (assoc header first))) (Object_keys first).

(** The [catch] of this function logs and rethrows, so it is the body. *)
Definition updateKEVCatalogFromCSV (f : feed) : M update_result :=
  match f with
  | FeedError msg => throw msg
  | FeedRecords records =>
      match records with
      | [] => throw empty_feed
      | first :: _ =>
          let headers := Object_keys first in
          let* _ := execute (CreateKevTable (table_columns first)) in
          let* _ := execute TruncateKev in
          let* _ := insert_records headers records in
          ret {| success := true; recordCount := length records |}
      end
  end.

(** ** Requests and responses *)

#[warnings="-register-all"]
Inductive json : Type :=
| JNull
| JString (s : string)
| JNumber (n : nat)
| JArray (items : list json)
| JObject (fields : list (string * json)).

Record response : Type := mk_response {
  status : nat;
  payload : json
}.

(** [res.status(code).json({ error: msg })] *)
Definition error_response (code : nat) (msg : string) : response :=
  {| status := code; payload := JObject [("error", JString msg)] |}.

(** A request after [bodyParser.json()]: header names are lower case and
    [req.body] is an object, empty when no JSON body was sent.  The values
    looked at are strings.  [application] is the property the gate sets. *)
Record request : Type := mk_request {
  headers : gmap string string;
  query : gmap string string;
  body : gmap string string;
  application : option credential
}.

Definition set_application (req : request) (row : credential) : request :=
  {| headers := headers req; query := query req; body := body req;
     application := Some row |}.

(** A middleware either answers or calls [next()]. *)
Inductive gate : Type :=
| Rejected (res : response)
| Next (req : request).

(** ** Auth gate *)

(** [req.header('x-api-key') || req.query.api_key] *)
Definition presented_key (req : request) : option string :=
  JsString.or_else (headers req !! "x-api-key") (query req !! "api_key").

(** [req.header('app-name') || req.query.app_name || req.body.app_name] *)
Definition claimed_name (req : request) : option string :=
  JsString.or_else
    (JsString.or_else (headers req !! "app-name") (query req !! "app_name"))
    (body req !! "app_name").

Definition verifyApiKey (req : request) : world -> gate * world :=
  let apiKey := presented_key req in
  let appName := claimed_name req in
  if JsString.falsy apiKey
  then fun w => (Rejected (error_response 401 "API key is required"), w)
  else
    try_catch
      (let* found := execute (SelectActiveKey (to_param apiKey) (to_param appName)) in
       match found with
       | KeyRows (row :: _) =>
           let* _ := execute (TouchKey (to_param apiKey) (to_param appName)) in
           ret (Next (set_application req row))
       | _ => ret (Rejected (error_response 401 "Invalid API key"))
       end)
      (fun _ w => (Rejected (error_response 500 "Failed to authenticate API key"), w)).

(** [app.METHOD(path, verifyApiKey, handler)] *)
Definition protected (handler : request -> world -> response * world)
  (req : request) (w : world) : response * world :=
  match verifyApiKey req w with
  | (Rejected res, w') => (res, w')
  | (Next req', w') => handler req' w'
  end.

(** ** Key issuance *)

Definition hex_digit (n : nat) : ascii :=
  match String.get n "0123456789abcdef" with
  | Some c => c
  | None => "0"%char
  end.

(** [buffer.toString('hex')] *)
Fixpoint toHex (bytes : list Byte.byte) : string :=
  match bytes with
  | [] => ""
  | b :: rest =>
      let n := Byte.to_nat b in
      String (hex_digit (n / 16)) (String (hex_digit (n mod 16)) (toHex rest))
  end.

Definition generateApiKey : M string :=
  let* bytes := randomBytes 32 in
  ret (toHex bytes).

(** The fields of an object literal as [JSON.stringify] keeps them: a
    property whose value is [undefined] is left out. *)
Definition string_field (name : string) (v : option string) : list (string * json) :=
  match v with
  | Some s => [(name, JString s)]
  | None => []
  end.

(** [app.post("/api-keys", ...)]: no middleware in front of the handler. *)
Definition post_api_keys (req : request) : world -> response * world :=
  try_catch
    (let appName := headers req !! "app-name" in
     let* apiKey := generateApiKey in
     let* _ := execute (InsertKey (PString apiKey) (to_param appName)) in
     ret {| status := 201;
            payload := JObject (string_field "app_name" appName ++
                                [("apiKey", JString apiKey)]) |})
    (fun msg w => (error_response 500 msg, w)).

(** ** Row count *)

(** [res.json(rows)]: the rows of a result as an array of objects. *)
Definition credential_json (r : credential) : json :=
  JObject [("id", JNumber (key_id r)); ("api_key", JString (api_key r));
           ("app_name", JString (app_name r)); ("created_at", JNumber (created_at r));
           ("last_used", match last_used r with Some t => JNumber t | None => JNull end);
           ("is_active", JNumber (if is_active r then 1 else 0))].

Definition rows_json (r : result) : json :=
  match r with
  | KeyRows rs => JArray (map credential_json rs)
  | CountRow n => JArray [JObject [("count", JNumber n)]]
  | Done => JArray []
  end.

Definition count_handler (req : request) : world -> response * world :=
  try_catch
    (let* rows := execute CountCve in
     ret {| status := 200; payload := rows_json rows |})
    (fun msg w => (error_response 500 msg, w)).

(** [app.get("/count", verifyApiKey, ...)] *)
Definition get_count : request -> world -> response * world :=
  protected count_handler.

(** [app.post("/update-kev", verifyApiKey, ...)] *)
Definition update_kev_handler (f : feed) (req : request) : world -> response * world :=
  try_catch
    (let* result := updateKEVCatalogFromCSV f in
     ret {| status := 200;
            payload := JObject [("message", JString "KEV catalog updated successfully");
                                ("recordCount", JNumber (recordCount result))] |})
    (fun msg w => (error_response 500 msg, w)).

Definition post_update_kev (f : feed) : request -> world -> response * world :=
  protected (update_kev_handler f).

(** ** Vocabulary of the statements *)

(** Every character is one of 0-9. *)
Definition digits (s : string) : Prop :=
  JsString.all_chars Regex.is_digit s = true.

(** The shape [^\d+$]: one digit or more, and nothing else. *)
Definition digit_string (s : string) : Prop := s <> "" /\ digits s.

(** The shape [^\d*\.\d+$]: digits (maybe none), a dot, one digit or more. *)
Definition float_string (s : string) : Prop :=
  exists a b, s = a +:+ "." +:+ b /\ digits a /\ digit_string b.

(** Empty, or white space only. *)
Definition blank (s : string) : Prop :=
  JsString.all_chars JsString.is_space s = true.




(** The store takes the inserts of a refresh: there is no catalog table yet,
    or the one there has every column the header names. *)
Definition accepts_headers (s : store) (headers : list string) : Prop :=
  match KEV_Catalog s with
  | Some t => forallb (has_column t) headers = true
  | None => True
  end.

(** The world after the statements [sts] were sent and left the store [s]. *)
Definition logged (w : world) (sts : list statement) (s : store) : world :=
  {| db := s; log := log w ++ sts; random := random w; drawn := drawn w |}.

(** The request presents an API key: the header or the query parameter
    holds a non-empty string. *)
Definition presents_key (req : request) (k : string) : Prop :=
  presented_key req = Some k /\ k <> "".

(** A record the lookup of the gate resolves to, for key [k] and name [n]:
    active, and equal to both under the collation of the store. *)
Definition resolves (s : store) (k n : string) (r : credential) : Prop :=
  In r (api_keys s) /\
  coll_eqb (collation s) (api_key r) k = true /\
  coll_eqb (collation s) (app_name r) n = true /\
  is_active r = true.

(** The same, with equality of the texts. *)
Definition resolves_exactly (s : store) (k n : string) (r : credential) : Prop :=
  In r (api_keys s) /\ api_key r = k /\ app_name r = n /\ is_active r = true.

(** No time stamp of the credential table lies ahead of the clock. *)
Definition stamps_in_past (s : store) : Prop :=
  forall r, In r (api_keys s) ->
    created_at r <= clock s /\ (forall t, last_used r = Some t -> t <= clock s).

(** [t1 <= t2] on nullable stamps, NULL below everything. *)
Definition stamp_le (t1 t2 : option nat) : Prop :=
  match t1, t2 with
  | None, _ => True
  | Some a, Some b => a <= b
  | Some _, None => False
  end.

(** The store after [UPDATE api_keys SET last_used = CURRENT_TIMESTAMP ...]. *)
Definition touched (s : store) (k n : string) : store :=
  with_keys s (next_id s)
    (map (fun r => if key_and_name (collation s) (PString k) (PString n) r
                   then touch (clock s) r else r)
         (api_keys s)).

(** One of 0-9 or a-f. *)
Definition is_lower_hex (c : ascii) : bool :=
  let n := nat_of_ascii c in
  ((48 <=? n)%nat && (n <=? 57)%nat) || ((97 <=? n)%nat && (n <=? 102)%nat).

(** The number a lower-case hexadecimal digit stands for. *)
Definition hex_value (c : ascii) : nat :=
  let n := nat_of_ascii c in
  if (n <=? 57)%nat then n - 48 else n - 87.

(** The token the next call of [generateApiKey] returns: the hexadecimal
    rendering of the next 32 bytes of the random source. *)
Definition next_bytes (w : world) : list Byte.byte :=
  map (random w) (seq (drawn w) 32).

Definition next_token (w : world) : string := toHex (next_bytes w).

(** No stored key equals the token under the collation of the store (the
    UNIQUE constraint on [api_key] is not violated). *)
Definition fresh_token (s : store) (token : string) : Prop :=
  existsb (fun r => coll_eqb (collation s) (api_key r) token) (api_keys s) = false.

(** The row [INSERT INTO api_keys (api_key, app_name)] adds, with the
    defaults of the schema. *)
Definition issued (s : store) (token name : string) : credential :=
  {| key_id := next_id s; api_key := token; app_name := name;
     created_at := clock s; last_used := None; is_active := true |}.

(** The answer 201 of the key endpoint. *)
Definition created_response (name token : string) : response :=
  {| status := 201;
     payload := JObject [("app_name", JString name); ("apiKey", JString token)] |}.

(** The answer of the count endpoint for a count [n]. *)
Definition count_response (n : nat) : response :=
  {| status := 200; payload := JArray [JObject [("count", JNumber n)]] |}.

(** ** Sample data *)

Definition zero_key : string := toHex (repeat Byte.x00 32).

Definition app1_key : credential :=
  {| key_id := 1; api_key := zero_key; app_name := "App1";
     created_at := 5; last_used := Some 7; is_active := true |}.

Definition sample_table : kev_table :=
  {| columns := [("cveID", TEXT); ("vendorProject", TEXT)];
     rows := [[("cveID", Some "CVE-2021-0001"); ("vendorProject", Some "Acme")];
              [("cveID", Some "CVE-2021-0002"); ("vendorProject", None)]] |}.

Definition sample_store (c : Collation) : store :=
  {| collation := c; clock := 10; next_id := 2;
     api_keys := [app1_key]; KEV_Catalog := Some sample_table |}.

Definition sample_world (c : Collation) : world :=
  {| db := sample_store c; log := []; random := fun _ => Byte.x00; drawn := 0 |}.

Definition fresh_world : world :=
  {| db := {| collation := CaseInsensitive; clock := 10; next_id := 1;
              api_keys := []; KEV_Catalog := None |};
     log := []; random := fun _ => Byte.xff; drawn := 0 |}.

Definition sample_records : list csv_record :=
  [[("cveID", "CVE-2021-0001"); ("vendorProject", "Acme"); ("notes", "")];
   [("cveID", "CVE-2021-0002"); ("vendorProject", ""); ("notes", "patched")]].

Definition request_of (hs qs bs : list (string * string)) : request :=
  {| headers := list_to_map hs; query := list_to_map qs; body := list_to_map bs;
     application := None |}.

(** ** Vocabulary of the further properties *)

(** A digit or the dot: the only characters a numeric sample is made of. *)
Definition numeric_char (c : ascii) : bool :=
  Regex.is_digit c || Ascii.eqb c ".".

(** The string is empty or starts with something that is not white space. *)
Definition head_not_space (s : string) : Prop :=
  match s with
  | EmptyString => True
  | String c _ => JsString.is_space c = false
  end.

(** The credential side of two stores is the same. *)
Definition same_credentials (s s' : store) : Prop :=
  collation s' = collation s /\ clock s' = clock s /\
  next_id s' = next_id s /\ api_keys s' = api_keys s.

(** The columns the catalog table has once the CREATE TABLE IF NOT EXISTS of
    a refresh is through: those of the table already there, or else the ones
    inferred from the first record. *)
Definition columns_after (s : store) (first : csv_record) : list (string * data_type) :=
  match KEV_Catalog s with
  | Some t => columns t
  | None => table_columns first
  end.

(** The catalog table at the end of a refresh that succeeds. *)
Definition catalog_after (s : store) (first : csv_record) (records : list csv_record)
  : kev_table :=
  {| columns := columns_after s first;
     rows := map (fun r => new_kev_row {| columns := columns_after s first; rows := [] |}
                             (Object_keys first) (insert_values (Object_keys first) r))
                 records |}.

(** The record has a non-empty [cveID] field. *)
Definition has_cve (record : csv_record) : bool :=
  match assoc "cveID" record with
  | Some v => JsString.truthy v
  | None => false
  end.


Definition drifted_store : store :=
  {| collation := Binary; clock := 10; next_id := 1; api_keys := [];
     KEV_Catalog :=
       Some {| columns := [("cveID", TEXT)];
               rows := [[("cveID", Some "CVE-2020-0001")]] |} |}.

Definition drifted_world : world :=
  {| db := drifted_store; log := []; random := fun _ => Byte.x00; drawn := 0 |}.

Definition keyed_world : world :=
  {| db := {| collation := Binary; clock := 10; next_id := 2;
              api_keys := [app1_key]; KEV_Catalog := None |};
     log := []; random := fun _ => Byte.x01; drawn := 0 |}.

(** What a credential record is, apart from its [last_used] stamp. *)
Definition credential_identity (r : credential) : nat * string * string * nat * bool :=
  (key_id r, api_key r, app_name r, created_at r, is_active r).

(** What the gate decided: the answer it sent, or the record it attached. *)
Definition decision (g : gate) : response + option credential :=
  match g with
  | Rejected res => inl res
  | Next req => inr (application req)
  end.

(** No two records of the credential table have keys that compare equal:
    the UNIQUE constraint on [api_key]. *)
Definition unique_keys (s : store) : Prop :=
  ForallOrdPairs
    (fun a b => coll_eqb (collation s) (api_key a) (api_key b) = false)
    (api_keys s).

Definition app2_key : credential :=
  {| key_id := 2; api_key := toHex (repeat Byte.xff 32); app_name := "App2";
     created_at := 6; last_used := None; is_active := true |}.

Definition two_key_world : world :=
  {| db := {| collation := CaseInsensitive; clock := 10; next_id := 3;
              api_keys := [app1_key; app2_key]; KEV_Catalog := None |};
     log := []; random := fun _ => Byte.x01; drawn := 0 |}.

(** * Properties *)

(** ** The schema inferrer *)

Example getDataType_123 : getDataType "123" = INT.
Proof. reflexivity. Qed.

Example getDataType_1_5 : getDataType "1.5" = FLOAT.
Proof. reflexivity. Qed.

Example getDataType_dot5 : getDataType ".5" = FLOAT.
Proof. reflexivity. Qed.

Example getDataType_empty : getDataType "" = TEXT.
Proof. reflexivity. Qed.

Example getDataType_abc : getDataType "abc" = TEXT.
Proof. reflexivity. Qed.

Example getDataType_12a : getDataType "12a" = TEXT.
Proof. reflexivity. Qed.

Section StringFacts.

(** stdpp keeps [String.append] from unfolding under [simpl]; its two
    equations are stated once. *)
Lemma append_nil_l (s : string) : "" +:+ s = s.
Proof. reflexivity. Qed.

Lemma append_cons (c : ascii) (a b : string) : String c a +:+ b = String c (a +:+ b).
Proof. reflexivity. Qed.

Lemma append_empty_r (s : string) : s +:+ "" = s.
Proof.
  induction s as [|c s IH]; [reflexivity |].
  now rewrite append_cons, IH.
Qed.

Lemma append_assoc (a b c : string) : (a +:+ b) +:+ c = a +:+ (b +:+ c).
Proof.
  induction a as [|x a IH]; [reflexivity |].
  now rewrite !append_cons, IH.
Qed.

Lemma append_is_empty (a b : string) : a +:+ b = "" -> a = "" /\ b = "".
Proof.
  destruct a as [|x a]; [rewrite append_nil_l; auto |].
  rewrite append_cons. discriminate.
Qed.

(** A concatenation that starts with [c] either has an empty left part or
    a left part that starts with [c]. *)
Lemma append_is_cons (a b : string) (c : ascii) (s : string) :
  a +:+ b = String c s ->
  (a = "" /\ b = String c s) \/ (exists a', a = String c a' /\ s = a' +:+ b).
Proof.
  destruct a as [|x a]; intros H.
  - left. auto.
  - right. rewrite append_cons in H. injection H as -> <-. eauto.
Qed.

Lemma all_chars_append (p : ascii -> bool) (a b : string) :
  JsString.all_chars p (a +:+ b) = JsString.all_chars p a && JsString.all_chars p b.
Proof.
  induction a as [|x a IH]; [reflexivity |].
  rewrite append_cons. simpl. rewrite IH. apply andb_assoc.
Qed.

End StringFacts.

(** *** The derivative matcher decides the language *)

Section RegexFacts.

Import Regex.

Lemma matches_empty_nullable (r : regex) (s : string) :
  matches r s -> s = "" -> nullable r = true.
Proof.
  induction 1 as [ | c Hc | c | r1 r2 s _ IH | r1 r2 s _ IH
                 | r1 r2 s1 s2 _ IH1 _ IH2 | r | r s1 s2 _ _ _ _ ];
    intros E; simpl; try discriminate; try reflexivity.
  - now rewrite IH.
  - rewrite IH by assumption. apply orb_true_r.
  - apply append_is_empty in E as [-> ->]. now rewrite IH1, IH2.
Qed.

Lemma nullable_matches_empty (r : regex) : nullable r = true -> matches r "".
Proof.
  induction r as [ | | | c | r1 IH1 r2 IH2 | r1 IH1 r2 IH2 | r IH ];
    simpl; intros H; try discriminate.
  - constructor.
  - apply orb_true_iff in H as [H | H]; [apply m_alt_l | apply m_alt_r]; auto.
  - apply andb_true_iff in H as [H1 H2].
    change "" with ("" +:+ ""). constructor; auto.
  - constructor.
Qed.

Lemma deriv_sound (c : ascii) (r : regex) :
  forall s, matches (deriv c r) s -> matches r (String c s).
Proof.
  induction r as [ | | | d | r1 IH1 r2 IH2 | r1 IH1 r2 IH2 | r IH ];
    simpl; intros s H.
  - inversion H.
  - inversion H.
  - destruct (is_digit c) eqn:Hd; inversion H; subst. now constructor.
  - destruct (Ascii.eqb c d) eqn:Hd; inversion H; subst.
    apply Ascii.eqb_eq in Hd as ->. constructor.
  - inversion H; subst; [apply m_alt_l | apply m_alt_r]; auto.
  - assert (Hseq : forall t, matches (Seq (deriv c r1) r2) t ->
                             matches (Seq r1 r2) (String c t)).
    { intros t Ht. inversion Ht; subst.
      change (String c (?a +:+ ?b)) with (String c a +:+ b).
      constructor; auto. }
    destruct (nullable r1) eqn:Hn.
    + inversion H; subst; [now apply Hseq |].
      change (String c s) with ("" +:+ String c s).
      constructor; [now apply nullable_matches_empty | auto].
    + now apply Hseq.
  - inversion H; subst.
    change (String c (?a +:+ ?b)) with (String c a +:+ b).
    apply m_star_cons; auto.
Qed.

Lemma deriv_complete (c : ascii) (r : regex) (s0 : string) :
  matches r s0 -> forall s, s0 = String c s -> matches (deriv c r) s.
Proof.
  induction 1 as [ | d Hd | d | r1 r2 t _ IH | r1 r2 t _ IH
                 | r1 r2 s1 s2 H1 IH1 H2 IH2 | r | r s1 s2 H1 IH1 H2 IH2 ];
    intros s E; simpl.
  - discriminate.
  - injection E as -> <-. rewrite Hd. constructor.
  - injection E as -> <-. rewrite Ascii.eqb_refl. constructor.
  - apply m_alt_l. auto.
  - apply m_alt_r. auto.
  - apply append_is_cons in E as [[-> E] | (a' & -> & ->)].
    + rewrite (matches_empty_nullable _ _ H1 eq_refl). apply m_alt_r. auto.
    + destruct (nullable r1); [apply m_alt_l |]; constructor; auto.
  - discriminate.
  - apply append_is_cons in E as [[-> E] | (a' & -> & ->)].
    + auto.
    + constructor; auto.
Qed.

Lemma test_matches (s : string) : forall r, test r s = true <-> matches r s.
Proof.
  induction s as [|c s IH]; intros r; simpl.
  - split; [apply nullable_matches_empty |].
    intros H. now apply (matches_empty_nullable r "").
  - rewrite IH. split; [apply deriv_sound |].
    intros H. now apply (deriv_complete c r (String c s)).
Qed.

End RegexFacts.

(** *** The two patterns, read as shapes of strings *)

Section Shapes.

Import Regex.

Lemma star_digit_digits (r : regex) (s : string) :
  matches r s -> r = Star Digit -> digits s.
Proof.
  unfold digits.
  induction 1 as [ | | | | | | r0 | r0 s1 s2 H1 _ _ IH2 ]; intros E;
    try discriminate; [reflexivity |].
  injection E as ->.
  rewrite all_chars_append, IH2 by reflexivity.
  inversion H1 as [ | c Hc | | | | | | ]; subst. simpl. now rewrite Hc.
Qed.

Lemma digits_star_digit (s : string) : digits s -> matches (Star Digit) s.
Proof.
  unfold digits. induction s as [|c s IH]; simpl; intros H.
  - constructor.
  - apply andb_true_iff in H as [Hc Hs].
    change (String c s) with (String c "" +:+ s).
    apply m_star_cons; [now constructor | auto].
Qed.

Lemma matches_re_integer (s : string) : matches re_integer s <-> digit_string s.
Proof.
  unfold re_integer, Plus, digit_string, digits. split.
  - intros H. inversion H as [ | | | | | r1 r2 s1 s2 H1 H2 | | ]; subst.
    inversion H1 as [ | c Hc | | | | | | ]; subst.
    rewrite append_cons, append_nil_l. split; [discriminate |].
    simpl. rewrite Hc. now apply (star_digit_digits (Star Digit)).
  - intros [Hne H]. destruct s as [|c s]; [contradiction |].
    simpl in H. apply andb_true_iff in H as [Hc Hs].
    change (String c s) with (String c "" +:+ s).
    constructor; [now constructor | now apply digits_star_digit].
Qed.

Lemma matches_re_float (s : string) : matches re_float s <-> float_string s.
Proof.
  unfold re_float, float_string. split.
  - intros H. inversion H as [ | | | | | r1 r2 a t Ha Ht | | ]; subst.
    inversion Ht as [ | | | | | r1 r2 d b Hd Hb | | ]; subst.
    inversion Hd; subst.
    exists a, b. split; [reflexivity |]. split.
    + now apply (star_digit_digits (Star Digit)).
    + now apply matches_re_integer.
  - intros (a & b & -> & Ha & Hb).
    constructor; [now apply digits_star_digit |].
    constructor; [constructor | now apply matches_re_integer].
Qed.

Lemma test_re_integer (s : string) : test re_integer s = true <-> digit_string s.
Proof. rewrite test_matches. apply matches_re_integer. Qed.

Lemma test_re_float (s : string) : test re_float s = true <-> float_string s.
Proof. rewrite test_matches. apply matches_re_float. Qed.

(** A string with a dot in it is not made of digits. *)
Lemma float_string_not_digits (s : string) : float_string s -> ~ digit_string s.
Proof.
  intros (a & b & -> & _ & _) [_ H]. unfold digits in H.
  rewrite all_chars_append in H. apply andb_true_iff in H as [_ H].
  rewrite append_cons in H. simpl in H. discriminate.
Qed.

Lemma float_string_not_empty (s : string) : float_string s -> s <> "".
Proof.
  intros (a & b & -> & _ & _) E.
  apply append_is_empty in E as [_ E]. rewrite append_cons in E. discriminate.
Qed.

End Shapes.

(** *** [trim] leaves nothing exactly on blank strings *)

Section TrimFacts.

Import JsString.

Lemma trimStart_blank (s : string) : blank (trimStart s) <-> blank s.
Proof.
  unfold blank. induction s as [|c s IH]; simpl; [tauto |].
  destruct (is_space c) eqn:Hc; simpl; [exact IH |].
  rewrite Hc. tauto.
Qed.

Lemma trimEnd_empty (s : string) : trimEnd s = "" <-> blank s.
Proof.
  unfold blank. induction s as [|c s IH]; simpl; [tauto |].
  destruct (trimEnd s) as [|d t] eqn:Ht.
  - destruct (is_space c); simpl.
    + split; [intros _; now apply IH | reflexivity].
    + split; discriminate.
  - split; [discriminate |].
    intros H. apply andb_true_iff in H as [_ H]. apply IH in H. discriminate.
Qed.

Lemma trim_empty (s : string) : trim s = "" <-> blank s.
Proof. unfold trim. rewrite trimEnd_empty. apply trimStart_blank. Qed.

Lemma trim_of_empty : trim "" = "".
Proof. reflexivity. Qed.

End TrimFacts.

(** *** Claim C1 *)

Lemma getDataType_cases (s : string) :
  getDataType s =
    if String.eqb (JsString.trim s) "" then TEXT
    else if Regex.test Regex.re_integer (JsString.trim s) then INT
    else if Regex.test Regex.re_float (JsString.trim s) then FLOAT
    else TEXT.
Proof.
  unfold getDataType. destruct s as [|c s]; [reflexivity |]. reflexivity.
Qed.

(** C1, as stated, fails on a digit string with white space around it:
    [" 12"] is not of the shape [^\d+$], nor of the shape [^\d*\.\d+$], nor
    blank, and yet [getDataType] answers INT, because the patterns are tried
    on [sampleValue.trim()]. *)
Lemma getDataType_untrimmed_counterexample :
  ~ digit_string " 12" /\ ~ float_string " 12" /\ ~ blank " 12" /\
  getDataType " 12" = INT.
Proof.
  repeat split.
  - rewrite <- test_re_integer. vm_compute. discriminate.
  - rewrite <- test_re_float. vm_compute. discriminate.
  - unfold blank. vm_compute. discriminate.
Qed.

(** The four cases of [getDataType], on the trimmed value. *)
Lemma getDataType_shapes (s : string) :
  (digit_string (JsString.trim s) -> getDataType s = INT) /\
  (float_string (JsString.trim s) -> getDataType s = FLOAT) /\
  (blank s -> getDataType s = TEXT) /\
  (~ digit_string (JsString.trim s) -> ~ float_string (JsString.trim s) ->
   getDataType s = TEXT).
Proof.
  rewrite getDataType_cases.
  destruct (String.eqb_spec (JsString.trim s) "") as [E | NE].
  - repeat split; try reflexivity.
    + intros [Hne _]. contradiction.
    + intros H. apply float_string_not_empty in H. contradiction.
  - destruct (Regex.test Regex.re_integer (JsString.trim s)) eqn:Hi.
    + apply test_re_integer in Hi. repeat split; try reflexivity.
      * intros H. now apply float_string_not_digits in H.
      * intros H. apply trim_empty in H. contradiction.
      * intros H. contradiction.
    + assert (Hnd : ~ digit_string (JsString.trim s)).
      { intros H. apply test_re_integer in H. congruence. }
      destruct (Regex.test Regex.re_float (JsString.trim s)) eqn:Hf.
      * apply test_re_float in Hf. repeat split; try reflexivity.
        -- intros H. contradiction.
        -- intros H. apply trim_empty in H. contradiction.
        -- intros _ H. contradiction.
      * repeat split; try reflexivity.
        -- intros H. contradiction.
        -- intros H. apply test_re_float in H. congruence.
Qed.

(** C1 (amended): for every string [s], with [t] the trimmed [s]:
    [getDataType s] is INT when [t] has the shape [^\d+$], FLOAT when [t] has
    the shape [^\d*\.\d+$], TEXT when [s] is empty or all white space, and
    TEXT in every other case. *)
Theorem getDataType_spec (s : string) :
  (digit_string (JsString.trim s) -> getDataType s = INT) /\
  (float_string (JsString.trim s) -> getDataType s = FLOAT) /\
  (blank s -> getDataType s = TEXT) /\
  (~ digit_string (JsString.trim s) -> ~ float_string (JsString.trim s) ->
   getDataType s = TEXT).
Proof. exact (getDataType_shapes s). Qed.

Lemma getDataType_spec_witness :
  getDataType " 12 " = INT /\ getDataType "1.5" = FLOAT /\
  getDataType "  " = TEXT /\ getDataType "12a" = TEXT.
Proof.
  split; [| split; [| split]].
  - destruct (getDataType_spec " 12 ") as (H & _). apply H.
    apply test_re_integer. vm_compute. reflexivity.
  - destruct (getDataType_spec "1.5") as (_ & H & _). apply H.
    apply test_re_float. vm_compute. reflexivity.
  - destruct (getDataType_spec "  ") as (_ & _ & H & _). apply H.
    unfold blank. vm_compute. reflexivity.
  - destruct (getDataType_spec "12a") as (_ & _ & _ & H). apply H.
    + intros C. apply test_re_integer in C. vm_compute in C. discriminate.
    + intros C. apply test_re_float in C. vm_compute in C. discriminate.
Defined.

(** On a value that carries no surrounding white space, such as the fields
    csv-parse hands over with [trim: true], the shapes are those of the value
    itself. *)
Corollary getDataType_trimmed (s : string) :
  JsString.trim s = s ->
  (digit_string s -> getDataType s = INT) /\
  (float_string s -> getDataType s = FLOAT) /\
  (~ digit_string s -> ~ float_string s -> getDataType s = TEXT).
Proof.
  intros E. pose proof (getDataType_shapes s) as H. rewrite E in H. tauto.
Qed.

(** ** The catalog loader *)

Section MonadFacts.

Context {A B : Type}.


Lemma bind_step (m : M A) (k : A -> M B) (w w1 : world) (a : A) :
  m w = (inr a, w1) -> bind m k w = k a w1.
Proof. unfold bind. now intros ->. Qed.

Lemma bind_throw (m : M A) (k : A -> M B) (w w1 : world) (e : string) :
  m w = (inl e, w1) -> bind m k w = (inl e, w1).
Proof. unfold bind. now intros ->. Qed.

End MonadFacts.

Lemma execute_spec (st : statement) (w : world) :
  execute st w =
    (fst (db_execute st (db w)),
     {| db := snd (db_execute st (db w)); log := log w ++ [st];
        random := random w; drawn := drawn w |}).
Proof. unfold execute. now destruct (db_execute st (db w)). Qed.




(** *** Claim C2 *)

(** C2: when the feed parses to zero records, the refresh throws the error
    "No data found in CSV file" and leaves the world as it found it: no
    statement is sent, and the store, with any catalog table in it, is the
    one from before the call. *)
Theorem refresh_empty_feed (w : world) :
  updateKEVCatalogFromCSV (FeedRecords []) w = (inl empty_feed, w).
Proof. reflexivity. Qed.

(** The trigger endpoint reports that failure as a 500, once the gate has let
    the request through. *)
Lemma update_kev_handler_empty_feed (req : request) (w : world) :
  update_kev_handler (FeedRecords []) req w = (error_response 500 empty_feed, w).
Proof. reflexivity. Qed.

(** ** The auth gate *)

Section GateFacts.

Lemma presents_key_not_falsy (req : request) (k : string) :
  presents_key req k -> JsString.falsy (presented_key req) = false.
Proof. intros [-> Hk]. destruct k; [contradiction | reflexivity]. Qed.

Lemma not_falsy_presents_key (req : request) :
  JsString.falsy (presented_key req) = false -> exists k, presents_key req k.
Proof.
  unfold presents_key. destruct (presented_key req) as [k|]; [| discriminate].
  destruct k; [discriminate |]. intros _. eexists. split; [reflexivity | discriminate].
Qed.

(** No key: the answer is 401 and the world is untouched. *)
Lemma verifyApiKey_no_key (req : request) (w : world) :
  JsString.falsy (presented_key req) = true ->
  verifyApiKey req w = (Rejected (error_response 401 "API key is required"), w).
Proof. unfold verifyApiKey. now intros ->. Qed.

(** A key but no name: the driver refuses the [undefined] parameter. *)
Lemma verifyApiKey_no_name (req : request) (w : world) (k : string) :
  presents_key req k -> claimed_name req = None ->
  verifyApiKey req w =
    (Rejected (error_response 500 "Failed to authenticate API key"),
     logged w [SelectActiveKey (PString k) PUndefined] (db w)).
Proof.
  intros Hk Hn. unfold verifyApiKey.
  rewrite (presents_key_not_falsy _ _ Hk), Hn. destruct Hk as [-> _].
  reflexivity.
Qed.

(** A key and a name: the lookup decides. *)
Lemma verifyApiKey_lookup (req : request) (w : world) (k n : string) :
  presents_key req k -> claimed_name req = Some n ->
  verifyApiKey req w =
    match List.filter (active_key_and_name (collation (db w)) (PString k) (PString n))
                      (api_keys (db w)) with
    | [] =>
        (Rejected (error_response 401 "Invalid API key"),
         logged w [SelectActiveKey (PString k) (PString n)] (db w))
    | row :: _ =>
        (Next (set_application req row),
         logged w [SelectActiveKey (PString k) (PString n);
                   TouchKey (PString k) (PString n)]
                (touched (db w) k n))
    end.
Proof.
  intros Hk Hn. unfold verifyApiKey.
  rewrite (presents_key_not_falsy _ _ Hk), Hn. destruct Hk as [-> _].
  unfold try_catch, bind, execute, db_execute. simpl.
  destruct (List.filter _ _) as [|row more]; [reflexivity |].
  simpl. unfold logged. simpl.
  rewrite <- app_assoc. reflexivity.
Qed.

Lemma active_key_and_name_resolves (s : store) (k n : string) (r : credential) :
  In r (List.filter (active_key_and_name (collation s) (PString k) (PString n)) (api_keys s))
  <-> resolves s k n r.
Proof.
  unfold resolves, active_key_and_name. rewrite List.filter_In. simpl.
  rewrite !andb_true_iff. tauto.
Qed.

Lemma coll_eqb_binary (a b : string) : coll_eqb Binary a b = true <-> a = b.
Proof. apply String.eqb_eq. Qed.

Lemma resolves_binary (s : store) (k n : string) (r : credential) :
  collation s = Binary -> (resolves s k n r <-> resolves_exactly s k n r).
Proof.
  intros E. unfold resolves, resolves_exactly. rewrite E, !coll_eqb_binary. tauto.
Qed.

End GateFacts.

Section GateOutcome.

Variables (req : request) (w : world).

(** Whoever gets through presented a key and a name, and the lookup found a
    row: the first one is attached, and the world is the one after the
    SELECT and the UPDATE. *)
Lemma verifyApiKey_next (req' : request) (w' : world) :
  verifyApiKey req w = (Next req', w') ->
  exists k n row,
    presents_key req k /\ claimed_name req = Some n /\
    resolves (db w) k n row /\
    req' = set_application req row /\
    w' = logged w [SelectActiveKey (PString k) (PString n);
                   TouchKey (PString k) (PString n)]
                (touched (db w) k n).
Proof.
  intros H.
  destruct (JsString.falsy (presented_key req)) eqn:Hf.
  { rewrite verifyApiKey_no_key in H by assumption. discriminate. }
  apply not_falsy_presents_key in Hf as [k Hk].
  destruct (claimed_name req) as [n|] eqn:Hn.
  2:{ rewrite (verifyApiKey_no_name _ _ k) in H by assumption. discriminate. }
  rewrite (verifyApiKey_lookup _ _ k n) in H by assumption.
  destruct (List.filter _ _) as [|row more] eqn:Hrows; [discriminate |].
  injection H as <- <-.
  assert (Hr : resolves (db w) k n row).
  { apply active_key_and_name_resolves. rewrite Hrows. now left. }
  exists k, n, row. auto.
Qed.

Lemma verifyApiKey_resolved (k n : string) (r : credential) :
  presents_key req k -> claimed_name req = Some n -> resolves (db w) k n r ->
  exists row, fst (verifyApiKey req w) = Next (set_application req row).
Proof.
  intros Hk Hn Hr. rewrite (verifyApiKey_lookup _ _ k n) by assumption.
  apply active_key_and_name_resolves in Hr.
  destruct (List.filter _ _) as [|row more]; [destruct Hr |].
  now exists row.
Qed.

Lemma verifyApiKey_miss (k n : string) :
  presents_key req k -> claimed_name req = Some n ->
  (forall r, ~ resolves (db w) k n r) ->
  verifyApiKey req w =
    (Rejected (error_response 401 "Invalid API key"),
     logged w [SelectActiveKey (PString k) (PString n)] (db w)).
Proof.
  intros Hk Hn Hnone. rewrite (verifyApiKey_lookup _ _ k n) by assumption.
  destruct (List.filter _ _) as [|row more] eqn:Hrows; [reflexivity |].
  exfalso. apply (Hnone row), active_key_and_name_resolves.
  rewrite Hrows. now left.
Qed.

End GateOutcome.

Lemma presents_key_unique (req : request) (k k' : string) :
  presents_key req k -> presents_key req k' -> k = k'.
Proof. intros [H _] [H' _]. congruence. Qed.

(** *** Claim C4 *)

(** C4, as stated, fails in a store whose text columns compare without
    regard to case, as they do under the default collations of MySQL (the
    schema of [createApiKeyTable] names none): the only record belongs to
    "App1", the request claims "app1", no record has exactly that name, and
    the gate lets the request through. *)
Lemma gate_case_insensitive_counterexample :
  let req := request_of [("x-api-key", zero_key); ("app-name", "app1")] [] [] in
  let w := sample_world CaseInsensitive in
  presents_key req zero_key /\
  claimed_name req = Some "app1" /\
  fst (verifyApiKey req w) = Next (set_application req app1_key) /\
  ~ (exists r, resolves_exactly (db w) zero_key "app1" r).
Proof.
  repeat split.
  - vm_compute. discriminate.
  - intros (r & Hin & _ & Hname & _).
    destruct Hin as [<- | []]. discriminate.
Qed.

(** The three parts of the gate's decision, for a request with a key. *)
Lemma gate_decision (req : request) (w : world) (k : string) :
  presents_key req k ->
  ((exists req', fst (verifyApiKey req w) = Next req') <->
   (exists n r, claimed_name req = Some n /\ resolves (db w) k n r)) /\
  (forall n, claimed_name req = Some n -> (forall r, ~ resolves (db w) k n r) ->
     fst (verifyApiKey req w) = Rejected (error_response 401 "Invalid API key")) /\
  (forall req', fst (verifyApiKey req w) = Next req' ->
     exists n r, claimed_name req = Some n /\ resolves (db w) k n r /\
                 req' = set_application req r).
Proof.
  intros Hk.
  assert (Hnext : forall req', fst (verifyApiKey req w) = Next req' ->
            exists n r, claimed_name req = Some n /\ resolves (db w) k n r /\
                        req' = set_application req r).
  { intros req' H. destruct (verifyApiKey req w) as [g w'] eqn:Hv. simpl in H. subst g.
    apply verifyApiKey_next in Hv as (k' & n & row & Hk' & Hn & Hr & -> & _).
    rewrite (presents_key_unique _ _ _ Hk Hk'). eauto. }
  split; [split |]; [| | split].
  - intros [req' H]. apply Hnext in H as (n & r & Hn & Hr & _). eauto.
  - intros (n & r & Hn & Hr).
    destruct (verifyApiKey_resolved req w k n r Hk Hn Hr) as [row Hrow]. eauto.
  - intros n Hn Hnone. now rewrite (verifyApiKey_miss req w k n).
  - exact Hnext.
Qed.

(** C4 (amended): for every request that presents an API key, the gate calls
    [next()] if and only if the store holds an active record whose key and
    application name equal the presented key and the claimed name under the
    text comparison of the store (its collation); a lookup that finds no such
    record is answered 401 "Invalid API key", whatever the reason of the miss;
    and on success the record found is attached to the request. *)
Theorem gate_admits_iff_resolves (req : request) (w : world) (k : string) :
  presents_key req k ->
  ((exists req', fst (verifyApiKey req w) = Next req') <->
   (exists n r, claimed_name req = Some n /\ resolves (db w) k n r)) /\
  (forall n, claimed_name req = Some n -> (forall r, ~ resolves (db w) k n r) ->
     fst (verifyApiKey req w) = Rejected (error_response 401 "Invalid API key")) /\
  (forall req', fst (verifyApiKey req w) = Next req' ->
     exists n r, claimed_name req = Some n /\ resolves (db w) k n r /\
                 req' = set_application req r).
Proof. exact (gate_decision req w k). Qed.

Lemma gate_admits_iff_resolves_witness :
  let req := request_of [("x-api-key", zero_key); ("app-name", "App1")] [] [] in
  exists req', fst (verifyApiKey req (sample_world Binary)) = Next req'.
Proof.
  intros req.
  assert (Hk : presents_key req zero_key).
  { split; [vm_compute; reflexivity | vm_compute; discriminate]. }
  destruct (gate_admits_iff_resolves req (sample_world Binary) zero_key Hk) as [[_ H] _].
  apply H. exists "App1", app1_key. split; [vm_compute; reflexivity |].
  repeat split; [now left | vm_compute; reflexivity ..].
Defined.

(** Under a binary collation the comparison is equality of the texts, and
    the gate is as strict as C4 has it. *)
Corollary gate_admits_iff_exact (req : request) (w : world) (k : string) :
  collation (db w) = Binary -> presents_key req k ->
  ((exists req', fst (verifyApiKey req w) = Next req') <->
   (exists n r, claimed_name req = Some n /\ resolves_exactly (db w) k n r)).
Proof.
  intros Hc Hk. destruct (gate_decision req w k Hk) as [H _].
  rewrite H. split; intros (n & r & Hn & Hr); exists n, r; split; try assumption;
    now apply (resolves_binary (db w) k n r Hc).
Qed.

(** *** Claim C5 *)

(** C5: a request with no API key in the [x-api-key] header and none in the
    [api_key] query parameter is answered 401 "API key is required"; the
    world is the one from before, so no statement went to the store. *)
Theorem gate_rejects_missing_key (req : request) (w : world) :
  headers req !! "x-api-key" = None ->
  query req !! "api_key" = None ->
  verifyApiKey req w = (Rejected (error_response 401 "API key is required"), w).
Proof.
  intros Hh Hq. apply verifyApiKey_no_key.
  unfold presented_key. now rewrite Hh, Hq.
Qed.

Lemma gate_rejects_missing_key_witness :
  let req := request_of [("app-name", "App1")] [("app_name", "App1")] [] in
  verifyApiKey req (sample_world Binary) =
    (Rejected (error_response 401 "API key is required"), sample_world Binary).
Proof.
  intros req.
  apply (gate_rejects_missing_key req (sample_world Binary));
    vm_compute; reflexivity.
Defined.

(** *** Claim C10 *)

(** C10: a request that presents an API key and no application name in the
    [app-name] header, the [app_name] query parameter or the [app_name] body
    field is never let through: the SELECT is handed to the driver with an
    [undefined] name, the driver rejects it, and the [catch] answers 500
    "Failed to authenticate API key" (not 401); the store is unchanged. *)
Theorem gate_rejects_missing_name (req : request) (w : world) (k : string) :
  presents_key req k ->
  headers req !! "app-name" = None ->
  query req !! "app_name" = None ->
  body req !! "app_name" = None ->
  verifyApiKey req w =
    (Rejected (error_response 500 "Failed to authenticate API key"),
     logged w [SelectActiveKey (PString k) PUndefined] (db w)) /\
  db_execute (SelectActiveKey (PString k) PUndefined) (db w) =
    (inl undefined_parameter, db w).
Proof.
  intros Hk Hh Hq Hb. split; [| reflexivity].
  apply verifyApiKey_no_name; [assumption |].
  unfold claimed_name. now rewrite Hh, Hq, Hb.
Qed.

Lemma gate_rejects_missing_name_witness :
  let req := request_of [("x-api-key", zero_key)] [] [] in
  fst (verifyApiKey req (sample_world Binary)) =
    Rejected (error_response 500 "Failed to authenticate API key").
Proof.
  intros req.
  assert (Hk : presents_key req zero_key).
  { split; [vm_compute; reflexivity | vm_compute; discriminate]. }
  destruct (gate_rejects_missing_name req (sample_world Binary) zero_key Hk) as [H _];
    [vm_compute; reflexivity .. |].
  now rewrite H.
Defined.

(** *** Time stamps never lie ahead of the clock *)

Section Stamps.

Lemma stamps_with_catalog (s : store) (t : kev_table) :
  stamps_in_past s -> stamps_in_past (with_catalog s t).
Proof. intros H. exact H. Qed.

Lemma stamps_touched (s : store) (k n : param) :
  stamps_in_past s ->
  stamps_in_past
    (with_keys s (next_id s)
       (map (fun r => if key_and_name (collation s) k n r then touch (clock s) r else r)
            (api_keys s))).
Proof.
  intros H r Hin. simpl in *. apply in_map_iff in Hin as (r0 & <- & Hin0).
  destruct (H r0 Hin0) as [Hc Hl].
  destruct (key_and_name _ _ _ r0); [| now split].
  simpl. split; [exact Hc |]. intros t [= <-]. apply Nat.le_refl.
Qed.

Lemma run_statement_stamps (st : statement) (s : store) :
  stamps_in_past s -> stamps_in_past (snd (run_statement st s)).
Proof.
  intros H. destruct st as [cols | | cols values | k n | k n | k n | ]; simpl.
  - destruct (KEV_Catalog s); assumption.
  - destruct (KEV_Catalog s); assumption.
  - destruct (KEV_Catalog s); [| assumption].
    destruct (negb _); [assumption |]. destruct (forallb _ _); assumption.
  - assumption.
  - now apply stamps_touched.
  - destruct k as [key | |]; try assumption.
    destruct n as [name | |]; try assumption.
    destruct (_ <? _)%nat; [assumption |].
    destruct (_ <? _)%nat; [assumption |].
    destruct (existsb _ _); [assumption |].
    intros r Hin. simpl in *. apply in_app_iff in Hin as [Hin | [<- | []]].
    + exact (H r Hin).
    + simpl. split; [apply Nat.le_refl | discriminate].
  - destruct (KEV_Catalog s); [| assumption]. destruct (has_column _ _); assumption.
Qed.

Lemma db_execute_stamps (st : statement) (s : store) :
  stamps_in_past s -> stamps_in_past (snd (db_execute st s)).
Proof.
  intros H. unfold db_execute. destruct (existsb _ _); [assumption |].
  now apply run_statement_stamps.
Qed.

(** Time may pass between two statements. *)
Lemma stamps_clock_advances (s : store) (later : nat) :
  clock s <= later -> stamps_in_past s ->
  stamps_in_past {| collation := collation s; clock := later; next_id := next_id s;
                    api_keys := api_keys s; KEV_Catalog := KEV_Catalog s |}.
Proof.
  intros Hle H r Hin. simpl in *. destruct (H r Hin) as [Hc Hl].
  split; [lia |]. intros t Ht. specialize (Hl t Ht). lia.
Qed.

End Stamps.

(** *** Claim C6 *)

Lemma touched_stamps_matched (s : store) (k n : string) (row : credential) :
  resolves s k n row -> In (touch (clock s) row) (api_keys (touched s k n)).
Proof.
  intros (Hin & Hkey & Hname & _). unfold touched. simpl.
  apply in_map_iff. exists row. split; [| assumption].
  unfold key_and_name. simpl. now rewrite Hkey, Hname.
Qed.

(** C6: whenever the gate lets a request through, the record it resolved is
    in the store with [last_used] set to the clock of the store, which is not
    below its former value as long as no stamp lay in the future; records
    with another key or name keep theirs; and the handler starts from the
    world in which that UPDATE has been done. *)
Theorem gate_stamps_last_used
  (req req' : request) (w w' : world) :
  verifyApiKey req w = (Next req', w') ->
  exists k n row,
    presents_key req k /\ claimed_name req = Some n /\
    application req' = Some row /\ resolves (db w) k n row /\
    In (touch (clock (db w)) row) (api_keys (db w')) /\
    last_used (touch (clock (db w)) row) = Some (clock (db w)) /\
    (stamps_in_past (db w) ->
     stamp_le (last_used row) (Some (clock (db w))) /\ stamps_in_past (db w')) /\
    (forall r, In r (api_keys (db w)) ->
       key_and_name (collation (db w)) (PString k) (PString n) r = false ->
       In r (api_keys (db w'))) /\
    log w' = log w ++ [SelectActiveKey (PString k) (PString n);
                       TouchKey (PString k) (PString n)] /\
    (forall handler, protected handler req w = handler req' w').
Proof.
  intros H. pose proof H as Hv.
  apply verifyApiKey_next in H as (k & n & row & Hk & Hn & Hr & -> & ->).
  exists k, n, row. simpl.
  repeat match goal with |- _ /\ _ => split end; try assumption; try reflexivity.
  - now apply touched_stamps_matched.
  - intros Hpast. split.
    + destruct Hr as (Hin & _). destruct (Hpast row Hin) as [_ Hl].
      unfold stamp_le. destruct (last_used row) as [t|]; [now apply Hl | exact I].
    + now apply stamps_touched.
  - intros r Hin Hno. apply in_map_iff. exists r. now rewrite Hno.
  - intros handler. unfold protected. now rewrite Hv.
Qed.

Lemma gate_stamps_last_used_witness :
  let req := request_of [("x-api-key", zero_key); ("app-name", "App1")] [] [] in
  let w := sample_world Binary in
  exists row,
    In (touch 10 row) (api_keys (db (snd (verifyApiKey req w)))) /\
    stamp_le (last_used row) (Some 10).
Proof.
  intros req w.
  destruct (gate_stamps_last_used req (set_application req app1_key) w
              (snd (verifyApiKey req w)))
    as (k & n & row & _ & _ & _ & _ & Hin & _ & Hle & _).
  - vm_compute. reflexivity.
  - exists row. split; [exact Hin |]. apply Hle.
    intros r [<- | []]. split; [vm_compute; lia |].
    intros t [= <-]. vm_compute. lia.
Defined.

(** ** Key issuance *)

Section HexFacts.

Lemma hex_pair_lower (b : Byte.byte) :
  is_lower_hex (hex_digit (Byte.to_nat b / 16)) = true /\
  is_lower_hex (hex_digit (Byte.to_nat b mod 16)) = true.
Proof. destruct b; split; reflexivity. Qed.

Lemma hex_pair_value (b : Byte.byte) :
  16 * hex_value (hex_digit (Byte.to_nat b / 16)) +
  hex_value (hex_digit (Byte.to_nat b mod 16)) = Byte.to_nat b.
Proof. destruct b; reflexivity. Qed.

Lemma toHex_length (bytes : list Byte.byte) :
  String.length (toHex bytes) = 2 * length bytes.
Proof. induction bytes as [|b rest IH]; simpl; [reflexivity | rewrite IH; lia]. Qed.

Lemma toHex_lower_hex (bytes : list Byte.byte) :
  JsString.all_chars is_lower_hex (toHex bytes) = true.
Proof.
  induction bytes as [|b rest IH]; [reflexivity |].
  destruct (hex_pair_lower b) as [Hhi Hlo].
  cbn [toHex JsString.all_chars]. now rewrite Hhi, Hlo, IH.
Qed.

Lemma to_nat_inj (a b : Byte.byte) : Byte.to_nat a = Byte.to_nat b -> a = b.
Proof.
  intros H. pose proof (Byte.of_to_nat a) as Ha. rewrite H, Byte.of_to_nat in Ha.
  now injection Ha.
Qed.

(** The rendering loses nothing: two byte strings with one rendering are
    the same. *)
Lemma toHex_inj (a : list Byte.byte) : forall b, toHex a = toHex b -> a = b.
Proof.
  induction a as [|x a IH]; intros [|y b] H; try discriminate; [reflexivity |].
  cbn [toHex] in H. injection H as Hhi Hlo Hrest.
  f_equal; [| now apply IH].
  assert (Ehi : hex_digit (Byte.to_nat x / 16) = hex_digit (Byte.to_nat y / 16))
    by exact Hhi.
  assert (Elo : hex_digit (Byte.to_nat x mod 16) = hex_digit (Byte.to_nat y mod 16))
    by exact Hlo.
  apply to_nat_inj. rewrite <- (hex_pair_value x), <- (hex_pair_value y).
  now rewrite Ehi, Elo.
Qed.

End HexFacts.

Lemma next_bytes_length (w : world) : length (next_bytes w) = 32.
Proof. unfold next_bytes. now rewrite length_map, length_seq. Qed.

Lemma generateApiKey_spec (w : world) :
  generateApiKey w =
    (inr (next_token w),
     {| db := db w; log := log w; random := random w; drawn := drawn w + 32 |}).
Proof. reflexivity. Qed.

Lemma next_token_length (w : world) : String.length (next_token w) = 64.
Proof. unfold next_token. now rewrite toHex_length, next_bytes_length. Qed.

(** What the handler of [POST /api-keys] does, by what the INSERT meets. *)
Lemma post_api_keys_spec (req : request) (w : world) :
  post_api_keys req w =
    let token := next_token w in
    let name := headers req !! "app-name" in
    let st := InsertKey (PString token) (to_param name) in
    let w1 := {| db := db w; log := log w; random := random w; drawn := drawn w + 32 |} in
    match db_execute st (db w) with
    | (inr _, s') =>
        ({| status := 201;
            payload := JObject (string_field "app_name" name ++ [("apiKey", JString token)]) |},
         logged w1 [st] s')
    | (inl msg, s') => (error_response 500 msg, logged w1 [st] s')
    end.
Proof.
  unfold post_api_keys, try_catch, bind. rewrite generateApiKey_spec.
  unfold execute. cbn [db log random drawn].
  destruct (db_execute _ (db w)) as [[msg | r] s']; reflexivity.
Qed.

Lemma insert_key_accepted (s : store) (token name : string) :
  String.length token = 64 -> String.length name <= 100 -> fresh_token s token ->
  db_execute (InsertKey (PString token) (PString name)) s =
    (inr Done, with_keys s (S (next_id s)) (api_keys s ++ [issued s token name])).
Proof.
  intros Ht Hn Hf. unfold db_execute. simpl. rewrite Ht.
  replace (64 <? 64)%nat with false by reflexivity.
  replace (100 <? String.length name)%nat with false
    by (symmetry; apply Nat.ltb_ge; exact Hn).
  unfold fresh_token in Hf. now rewrite Hf.
Qed.

(** The INSERT either adds one row or leaves the table as it is. *)
Lemma insert_key_rejected (s s' : store) (k n : param) (msg : string) :
  db_execute (InsertKey k n) s = (inl msg, s') -> s' = s.
Proof.
  unfold db_execute. destruct (existsb _ _); [now intros [= _ <-] |].
  simpl. destruct k as [key| |]; try (now intros [= _ <-]).
  destruct n as [name| |]; try (now intros [= _ <-]).
  destruct (_ <? _)%nat; [now intros [= _ <-] |].
  destruct (_ <? _)%nat; [now intros [= _ <-] |].
  destruct (existsb _ _); [now intros [= _ <-] | discriminate].
Qed.

Lemma insert_key_needs_name (s : store) (k : param) :
  fst (db_execute (InsertKey k PUndefined) s) = inl undefined_parameter.
Proof. unfold db_execute. simpl. destruct k; reflexivity. Qed.

Lemma post_api_keys_created (req : request) (w : world) (name : string) :
  headers req !! "app-name" = Some name ->
  String.length name <= 100 ->
  fresh_token (db w) (next_token w) ->
  fst (post_api_keys req w) = created_response name (next_token w) /\
  api_keys (db (snd (post_api_keys req w))) =
    api_keys (db w) ++ [issued (db w) (next_token w) name].
Proof.
  intros Hh Hn Hf. rewrite post_api_keys_spec. cbn zeta. rewrite Hh.
  cbn [to_param].
  rewrite (insert_key_accepted _ _ _ (next_token_length w) Hn Hf).
  split; reflexivity.
Qed.

(** A 201 means the header named the application. *)
Lemma post_api_keys_201 (req : request) (w : world) :
  status (fst (post_api_keys req w)) = 201 ->
  exists name,
    headers req !! "app-name" = Some name /\
    fst (post_api_keys req w) = created_response name (next_token w).
Proof.
  rewrite post_api_keys_spec. cbn zeta.
  destruct (headers req !! "app-name") as [name|] eqn:Hh.
  - destruct (db_execute _ (db w)) as [[msg | r] s']; simpl; [discriminate |].
    intros _. now exists name.
  - pose proof (insert_key_needs_name (db w) (PString (next_token w))) as Hu.
    cbn [to_param]. destruct (db_execute _ (db w)) as [[msg | r] s'];
      simpl in *; discriminate.
Qed.

(** *** Claim C7 *)

(** C7, as stated for every call, fails when the INSERT is rejected.  With
    the token already in the table the UNIQUE constraint refuses the row;
    with no [app-name] header the driver refuses the [undefined] parameter.
    Either way the answer is a 500 that carries no token, and no record is
    added. *)
Lemma issue_rejected_counterexample :
  (let req := request_of [("app-name", "App2")] [] [] in
   let w := sample_world Binary in
   next_token w = zero_key /\
   fst (post_api_keys req w) =
     error_response 500 "Duplicate entry for key 'api_keys.api_key'" /\
   api_keys (db (snd (post_api_keys req w))) = api_keys (db w)) /\
  (let req := request_of [] [] [] in
   fst (post_api_keys req fresh_world) = error_response 500 undefined_parameter /\
   api_keys (db (snd (post_api_keys req fresh_world))) = []).
Proof. vm_compute. repeat split. Qed.

(** C7 (amended): for every call, [generateApiKey] returns a token of exactly
    64 lower-case hexadecimal characters, the rendering of 32 bytes (256
    bits) drawn from the random source; when the request names the
    application in its [app-name] header (100 characters at most) and the
    token is not yet in the store, the handler adds one record with that
    token and name, active, and returns the token in its 201 answer. *)
Theorem issue_token_and_record (req : request) (w : world) :
  fst (generateApiKey w) = inr (next_token w) /\
  String.length (next_token w) = 64 /\
  JsString.all_chars is_lower_hex (next_token w) = true /\
  (length (next_bytes w) = 32 /\ next_token w = toHex (next_bytes w)) /\
  (forall name,
     headers req !! "app-name" = Some name ->
     String.length name <= 100 ->
     fresh_token (db w) (next_token w) ->
     fst (post_api_keys req w) = created_response name (next_token w) /\
     api_keys (db (snd (post_api_keys req w))) =
       api_keys (db w) ++ [issued (db w) (next_token w) name] /\
     is_active (issued (db w) (next_token w) name) = true).
Proof.
  split; [reflexivity |].
  split; [apply next_token_length |].
  split; [apply toHex_lower_hex |].
  split; [split; [apply next_bytes_length | reflexivity] |].
  intros name Hh Hn Hf.
  destruct (post_api_keys_created req w name Hh Hn Hf) as [Hres Hkeys].
  repeat split; assumption.
Qed.

Lemma issue_token_and_record_witness :
  let req := request_of [("app-name", "App1")] [] [] in
  fst (post_api_keys req fresh_world) = created_response "App1" (next_token fresh_world) /\
  api_keys (db (snd (post_api_keys req fresh_world))) =
    [issued (db fresh_world) (next_token fresh_world) "App1"].
Proof.
  intros req.
  destruct (issue_token_and_record req fresh_world) as (_ & _ & _ & _ & H).
  destruct (H "App1") as (Hres & Hkeys & _).
  - vm_compute. reflexivity.
  - vm_compute. lia.
  - vm_compute. reflexivity.
  - split; [exact Hres | exact Hkeys].
Defined.

(** *** Claim C8 *)

(** C8, as stated, fails for a name sent in the body: the handler reads
    [req.headers['app-name']] and nothing else, the name is [undefined], the
    INSERT is refused and the answer is 500, not 201. *)
Lemma api_keys_body_name_counterexample :
  let req := request_of [] [] [("app_name", "App1")] in
  body req !! "app_name" = Some "App1" /\
  fst (post_api_keys req fresh_world) = error_response 500 undefined_parameter /\
  api_keys (db (snd (post_api_keys req fresh_world))) = [].
Proof. vm_compute. repeat split. Qed.

(** C8 (amended): [POST /api-keys] runs without the gate: the only statement
    it sends is the INSERT, and its outcome depends on nothing in the request
    but the [app-name] header, the one place the application name is taken
    from; an answer 201 carries a JSON object with exactly the fields
    [app_name] (that header) and [apiKey] (the new token). *)
Theorem api_keys_endpoint (req : request) (w : world) :
  (forall req2, headers req2 !! "app-name" = headers req !! "app-name" ->
     post_api_keys req2 w = post_api_keys req w) /\
  log (snd (post_api_keys req w)) =
    log w ++ [InsertKey (PString (next_token w)) (to_param (headers req !! "app-name"))] /\
  (status (fst (post_api_keys req w)) = 201 ->
   exists name,
     headers req !! "app-name" = Some name /\
     fst (post_api_keys req w) =
       {| status := 201;
          payload := JObject [("app_name", JString name);
                              ("apiKey", JString (next_token w))] |}).
Proof.
  split; [| split].
  - intros req2 H. rewrite !post_api_keys_spec. cbn zeta. now rewrite H.
  - rewrite post_api_keys_spec. cbn zeta.
    destruct (db_execute _ (db w)) as [[msg | r] s']; reflexivity.
  - apply post_api_keys_201.
Qed.

Lemma api_keys_endpoint_witness :
  let req := request_of [("app-name", "App1")] [] [] in
  exists name,
    headers req !! "app-name" = Some name /\
    fst (post_api_keys req fresh_world) =
      {| status := 201;
         payload := JObject [("app_name", JString name);
                             ("apiKey", JString (next_token fresh_world))] |}.
Proof.
  intros req.
  destruct (api_keys_endpoint req fresh_world) as (_ & _ & H).
  apply H. vm_compute. reflexivity.
Defined.

(** ** The count endpoint *)

Lemma filter_all {A : Type} (p : A -> bool) (l : list A) :
  Forall (fun x => p x = true) l -> List.filter p l = l.
Proof.
  induction 1 as [|x l Hx _ IH]; simpl; [reflexivity |]. now rewrite Hx, IH.
Qed.

Lemma count_handler_spec (req : request) (w : world) (t : kev_table) :
  KEV_Catalog (db w) = Some t -> has_column t "cveID" = true ->
  count_handler req w =
    (count_response (length (List.filter (non_null "cveID") (rows t))),
     logged w [CountCve] (db w)).
Proof.
  intros Ht Hc. unfold count_handler, try_catch, bind, execute, db_execute.
  simpl. now rewrite Ht, Hc.
Qed.

(** COUNT(cveID) passes over the rows whose [cveID] is NULL. *)
Example count_skips_null_ids :
  let t := {| columns := [("cveID", TEXT)];
              rows := [[("cveID", Some "CVE-2021-0001")]; [("cveID", None)]] |} in
  let w := {| db := with_catalog (sample_store Binary) t; log := [];
              random := fun _ => Byte.x00; drawn := 0 |} in
  length (rows t) = 2 /\
  fst (count_handler (request_of [] [] []) w) = count_response 1.
Proof. vm_compute. split; reflexivity. Qed.

(** *** Claim C9 *)

(** Without the table, or without the column, the COUNT is refused and the
    handler answers 500 with the message of the error. *)
Lemma count_handler_fails (req : request) (w : world) :
  KEV_Catalog (db w) = None \/
  (exists t, KEV_Catalog (db w) = Some t /\ has_column t "cveID" = false) ->
  exists msg, fst (count_handler req w) = error_response 500 msg.
Proof.
  unfold count_handler, try_catch, bind, execute, db_execute. simpl.
  intros [-> | (t & -> & ->)]; eexists; reflexivity.
Qed.

(** C9, as stated, fails on the shape of the answer: the handler sends the
    rows of the result, a JSON array holding the one object [{count}], not
    that object itself.  It also fails before the first refresh: there is no
    catalog table yet, the SELECT is refused and an authenticated request
    gets a 500 with an [{error}] object. *)
Lemma count_is_array_counterexample :
  let req := request_of [("x-api-key", zero_key); ("app-name", "App1")] [] [] in
  (let w := sample_world Binary in
   (exists req', fst (verifyApiKey req w) = Next req') /\
   payload (fst (get_count req w)) = JArray [JObject [("count", JNumber 2)]] /\
   (forall n, payload (fst (get_count req w)) <> JObject [("count", JNumber n)])) /\
  (let w := keyed_world in
   (exists req', fst (verifyApiKey req w) = Next req') /\
   KEV_Catalog (db w) = None /\
   fst (get_count req w) = error_response 500 no_table).
Proof.
  intros req. split; cbn zeta.
  - split; [| split].
    + eexists. vm_compute. reflexivity.
    + vm_compute. reflexivity.
    + intros n. vm_compute. discriminate.
  - split; [| split].
    + eexists. vm_compute. reflexivity.
    + reflexivity.
    + vm_compute. reflexivity.
Qed.

(** C9 (amended): for every request the gate lets through, [GET /count]
    answers by the state of the catalog table.  When the table exists and
    has a [cveID] column, the answer is 200 with a JSON array of one object
    whose only field is [count], and [count] is the number of rows of the
    table when every row has a [cveID].  When there is no table yet, or the
    table has no [cveID] column, the answer is 500 with an [{error}]
    object. *)
Theorem count_endpoint (req req' : request) (w w1 : world) :
  verifyApiKey req w = (Next req', w1) ->
  (forall t, KEV_Catalog (db w) = Some t -> has_column t "cveID" = true ->
     exists n,
       fst (get_count req w) =
         {| status := 200; payload := JArray [JObject [("count", JNumber n)]] |} /\
       (Forall (fun row => non_null "cveID" row = true) (rows t) ->
        n = length (rows t))) /\
  (KEV_Catalog (db w) = None \/
   (exists t, KEV_Catalog (db w) = Some t /\ has_column t "cveID" = false) ->
   exists msg,
     fst (get_count req w) =
       {| status := 500; payload := JObject [("error", JString msg)] |}).
Proof.
  intros Hv. unfold get_count, protected. rewrite Hv.
  apply verifyApiKey_next in Hv as (k & n & row & _ & _ & _ & _ & ->).
  split.
  - intros t Ht Hc. rewrite (count_handler_spec _ _ t) by assumption.
    eexists. split; [reflexivity |].
    intros Hall. now rewrite (filter_all _ _ Hall).
  - intros Hno. now apply count_handler_fails.
Qed.

Lemma count_endpoint_witness :
  let req := request_of [("x-api-key", zero_key); ("app-name", "App1")] [] [] in
  (exists n,
     fst (get_count req (sample_world Binary)) =
       {| status := 200; payload := JArray [JObject [("count", JNumber n)]] |} /\
     n = 2) /\
  (exists msg,
     fst (get_count req keyed_world) =
       {| status := 500; payload := JObject [("error", JString msg)] |}).
Proof.
  intros req. split.
  - destruct (count_endpoint req (set_application req app1_key) (sample_world Binary)
                (snd (verifyApiKey req (sample_world Binary)))) as [H _].
    + vm_compute. reflexivity.
    + destruct (H sample_table eq_refl eq_refl) as (n & Hres & Hn).
      exists n. split; [exact Hres |]. apply Hn. repeat constructor.
  - destruct (count_endpoint req (set_application req app1_key) keyed_world
                (snd (verifyApiKey req keyed_world))) as [_ H].
    + vm_compute. reflexivity.
    + apply H. now left.
Defined.

(** The texts of the two statements the loader assembles from the header. *)
Example create_table_text :
  sql_text (CreateKevTable (table_columns [("cveID", "CVE-2021-0001"); ("cvssScore", "7.5");
                                           ("rank", "3"); ("notes", "")])) =
  "CREATE TABLE IF NOT EXISTS KEV_Catalog (`cveID` TEXT, `cvssScore` FLOAT, `rank` INT, `notes` TEXT);".
Proof. reflexivity. Qed.

Example insert_text :
  sql_text (insert_statement ["cveID"; "vendorProject"; "notes"]
              [("cveID", "CVE-2021-0001"); ("vendorProject", "Acme"); ("notes", "")]) =
  "INSERT INTO KEV_Catalog (`cveID`, `vendorProject`, `notes`) VALUES (?, ?, ?)".
Proof. reflexivity. Qed.

Example insert_binds_null_for_empty :
  insert_values ["cveID"; "vendorProject"; "notes"; "dueDate"]
    [("cveID", "CVE-2021-0001"); ("vendorProject", "Acme"); ("notes", "")] =
  [PString "CVE-2021-0001"; PString "Acme"; PNull; PNull].
Proof. reflexivity. Qed.

(** ** The refresh, seen from the store *)

Section RefreshStore.



Lemma or_null_defined (v : option string) : is_undefined (or_null v) = false.
Proof. destruct v as [x|]; simpl; [destruct x |]; reflexivity. Qed.

Lemma insert_values_defined (headers : list string) (record : csv_record) :
  existsb is_undefined (insert_values headers record) = false.
Proof.
  unfold insert_values. induction headers as [|h hs IH]; simpl; [reflexivity |].
  now rewrite or_null_defined, IH.
Qed.

Lemma insert_values_length (headers : list string) (record : csv_record) :
  length (insert_values headers record) = length headers.
Proof. unfold insert_values. apply length_map. Qed.


Lemma insert_accepted (s : store) (t : kev_table) (headers : list string)
  (record : csv_record) :
  KEV_Catalog s = Some t -> forallb (has_column t) headers = true ->
  db_execute (insert_statement headers record) s =
    (inr Done,
     with_catalog s
       {| columns := columns t;
          rows := rows t ++ [new_kev_row t headers (insert_values headers record)] |}).
Proof.
  intros Ht Hc. unfold db_execute, insert_statement. cbn [bind_params].
  rewrite insert_values_defined. cbn [run_statement].
  now rewrite Ht, insert_values_length, Nat.eqb_refl, Hc.
Qed.

(** The loop adds one row per record, in the order of the feed, and touches
    nothing else. *)
Lemma insert_records_rows (headers : list string) (records : list csv_record) :
  forall (w : world) (t : kev_table),
    KEV_Catalog (db w) = Some t -> forallb (has_column t) headers = true ->
    exists w',
      insert_records headers records w = (inr tt, w') /\
      KEV_Catalog (db w') =
        Some {| columns := columns t;
                rows := rows t ++
                        map (fun r => new_kev_row t headers (insert_values headers r))
                            records |} /\
      api_keys (db w') = api_keys (db w).
Proof.
  induction records as [|r rest IH]; intros w t Ht Hc.
  - exists w. split; [reflexivity | split; [| reflexivity]].
    rewrite Ht. destruct t. simpl. now rewrite app_nil_r.
  - set (t1 := {| columns := columns t;
                  rows := rows t ++ [new_kev_row t headers (insert_values headers r)] |}).
    set (w1 := logged w [insert_statement headers r] (with_catalog (db w) t1)).
    destruct (IH w1 t1 eq_refl Hc) as (w' & Hrun & Hcat & Hkeys).
    exists w'. split; [| split].
    + cbn [insert_records]. rewrite (bind_step _ _ w w1 Done); [exact Hrun |].
      unfold execute. now rewrite (insert_accepted _ t) by assumption.
    + rewrite Hcat. subst t1. cbn [columns rows map].
      now rewrite <- app_assoc.
    + exact Hkeys.
Qed.

Lemma table_columns_cover (first : csv_record) :
  forallb (has_column {| columns := table_columns first; rows := [] |})
          (Object_keys first) = true.
Proof.
  unfold table_columns, has_column. cbn [columns].
  apply forallb_forall. intros h Hin.
  induction (Object_keys first) as [|x l IH]; [destruct Hin |].
  simpl. destruct (String.eqb_spec h x) as [_ | Hne]; [reflexivity |].
  destruct Hin as [-> | Hin]; [contradiction | auto].
Qed.


(** With a catalog table that lacks one of the columns, the first INSERT is
    refused and the refresh throws. *)
Lemma refresh_rejected (records : list csv_record) (first : csv_record)
  (w : world) (t : kev_table) :
  head records = Some first ->
  KEV_Catalog (db w) = Some t ->
  forallb (has_column t) (Object_keys first) = false ->
  exists msg w', updateKEVCatalogFromCSV (FeedRecords records) w = (inl msg, w').
Proof.
  intros Hhead Ht Hc. destruct records as [|first' rest]; [discriminate |].
  injection Hhead as ->.
  unfold updateKEVCatalogFromCSV.
  set (w1 := logged w [CreateKevTable (table_columns first)] (db w)).
  rewrite (bind_step _ _ w w1 Done)
    by (unfold execute, db_execute; simpl; now rewrite Ht).
  set (t1 := {| columns := columns t; rows := [] |}).
  set (w2 := logged w1 [TruncateKev] (with_catalog (db w) t1)).
  rewrite (bind_step _ _ w1 w2 Done)
    by (unfold execute, db_execute; simpl; now rewrite Ht).
  cbn [insert_records].
  exists "Unknown column in 'field list'".
  exists (logged w2 [insert_statement (Object_keys first) first] (db w2)).
  apply bind_throw, bind_throw.
  unfold execute, db_execute, insert_statement. cbn [bind_params].
  rewrite insert_values_defined. simpl.
  rewrite insert_values_length, Nat.eqb_refl. simpl.
  change (forallb (has_column t1) (Object_keys first))
    with (forallb (has_column t) (Object_keys first)).
  now rewrite Hc.
Qed.

End RefreshStore.

(** *** Claim C3 *)



(** * Further properties *)

(** ** The schema inferrer, beyond C1 *)

Section TrimIdempotent.

Import JsString.

Lemma trimEnd_cons (c : ascii) (s : string) :
  trimEnd (String c s) =
    match trimEnd s with
    | EmptyString => if is_space c then EmptyString else String c EmptyString
    | t => String c t
    end.
Proof. reflexivity. Qed.

Lemma trimEnd_idempotent (s : string) : trimEnd (trimEnd s) = trimEnd s.
Proof.
  induction s as [|c s IH]; [reflexivity |].
  rewrite trimEnd_cons. destruct (trimEnd s) as [|d t] eqn:Ht.
  - destruct (is_space c) eqn:Hc; [reflexivity |].
    rewrite trimEnd_cons. cbn [trimEnd]. now rewrite Hc.
  - rewrite trimEnd_cons. now rewrite IH.
Qed.

Lemma trimStart_head (s : string) : head_not_space (trimStart s).
Proof.
  induction s as [|c s IH]; [exact I |].
  cbn [trimStart]. destruct (is_space c) eqn:Hc; [exact IH | exact Hc].
Qed.

Lemma trimStart_fixed (s : string) : head_not_space s -> trimStart s = s.
Proof. destruct s as [|c s]; [reflexivity |]. simpl. now intros ->. Qed.

Lemma trimEnd_head (s : string) : head_not_space s -> head_not_space (trimEnd s).
Proof.
  destruct s as [|c s]; [intros _; exact I |].
  simpl. intros Hc. destruct (trimEnd s); [rewrite Hc |]; exact Hc.
Qed.

Lemma trim_idempotent (s : string) : trim (trim s) = trim s.
Proof.
  unfold trim.
  rewrite (trimStart_fixed (trimEnd (trimStart s)))
    by apply trimEnd_head, trimStart_head.
  apply trimEnd_idempotent.
Qed.

End TrimIdempotent.

(** White space around a sample never changes the type inferred for it:
    [getDataType(s.trim())] is [getDataType(s)]. *)
Theorem getDataType_ignores_surrounding_space (s : string) :
  getDataType (JsString.trim s) = getDataType s.
Proof. rewrite !getDataType_cases. now rewrite trim_idempotent. Qed.

(** The inferred type tells the shape of the trimmed sample: INT exactly for
    a run of digits, FLOAT exactly for digits, a dot and one digit or more,
    TEXT exactly for the rest. *)
Theorem getDataType_tells_shape (s : string) :
  (getDataType s = INT <-> digit_string (JsString.trim s)) /\
  (getDataType s = FLOAT <-> float_string (JsString.trim s)) /\
  (getDataType s = TEXT <->
   ~ digit_string (JsString.trim s) /\ ~ float_string (JsString.trim s)).
Proof.
  destruct (getDataType_shapes s) as (Hint & Hfloat & _ & Htext).
  assert (Hex : float_string (JsString.trim s) -> ~ digit_string (JsString.trim s))
    by apply float_string_not_digits.
  assert (Hdec : digit_string (JsString.trim s) \/ ~ digit_string (JsString.trim s)).
  { destruct (Regex.test Regex.re_integer (JsString.trim s)) eqn:E.
    - left. now apply test_re_integer.
    - right. intros H. apply test_re_integer in H. congruence. }
  assert (Hdecf : float_string (JsString.trim s) \/ ~ float_string (JsString.trim s)).
  { destruct (Regex.test Regex.re_float (JsString.trim s)) eqn:E.
    - left. now apply test_re_float.
    - right. intros H. apply test_re_float in H. congruence. }
  split; [| split]; split.
  - intros E. destruct Hdec as [Hd | Hnd]; [exact Hd |].
    destruct Hdecf as [Hf | Hnf].
    + rewrite (Hfloat Hf) in E. discriminate.
    + rewrite (Htext Hnd Hnf) in E. discriminate.
  - exact Hint.
  - intros E. destruct Hdecf as [Hf | Hnf]; [exact Hf |].
    destruct Hdec as [Hd | Hnd].
    + rewrite (Hint Hd) in E. discriminate.
    + rewrite (Htext Hnd Hnf) in E. discriminate.
  - exact Hfloat.
  - intros E. split.
    + intros Hd. rewrite (Hint Hd) in E. discriminate.
    + intros Hf. rewrite (Hfloat Hf) in E. discriminate.
  - intros [Hnd Hnf]. now apply Htext.
Qed.

Lemma digits_numeric (s : string) :
  digits s -> JsString.all_chars numeric_char s = true.
Proof.
  unfold digits, numeric_char. induction s as [|c s IH]; simpl; [reflexivity |].
  intros H. apply andb_true_iff in H as [Hc Hs]. now rewrite Hc, IH.
Qed.

(** A sign, an exponent, a separator, a unit: one character that is neither
    a digit nor the dot inside the trimmed sample makes the column TEXT. *)
Theorem getDataType_foreign_character (s : string) :
  JsString.all_chars numeric_char (JsString.trim s) = false ->
  getDataType s = TEXT.
Proof.
  intros H. destruct (getDataType_shapes s) as (_ & _ & _ & Htext).
  apply Htext.
  - intros [_ Hd]. apply digits_numeric in Hd. congruence.
  - intros (a & b & E & Ha & _ & Hb). rewrite E in H.
    rewrite !all_chars_append in H.
    rewrite (digits_numeric a Ha), (digits_numeric b Hb) in H.
    discriminate.
Qed.

Lemma getDataType_foreign_character_witness :
  getDataType "-12" = TEXT /\ getDataType "1e5" = TEXT /\ getDataType "1,000" = TEXT.
Proof.
  split; [| split]; apply getDataType_foreign_character; vm_compute; reflexivity.
Defined.

(** ** The catalog loader, beyond C2 and C3 *)

Section RefreshOutcomes.

Lemma same_credentials_refl (s : store) : same_credentials s s.
Proof. repeat split. Qed.

Lemma same_credentials_trans (s1 s2 s3 : store) :
  same_credentials s1 s2 -> same_credentials s2 s3 -> same_credentials s1 s3.
Proof.
  intros (A1 & B1 & C1 & D1) (A2 & B2 & C2 & D2).
  repeat split; congruence.
Qed.

(** What one of the three catalog statements can do to the store. *)
Lemma catalog_statement_effect (st : statement) (s : store) :
  (exists cols, st = CreateKevTable cols) \/ st = TruncateKev \/
  (exists cols values, st = InsertKev cols values) ->
  same_credentials s (snd (db_execute st s)) /\
  (forall t, KEV_Catalog s = Some t ->
     exists t', KEV_Catalog (snd (db_execute st s)) = Some t' /\ columns t' = columns t).
Proof.
  assert (Hid : same_credentials s s /\
                (forall t, KEV_Catalog s = Some t ->
                   exists t', KEV_Catalog s = Some t' /\ columns t' = columns t)).
  { split; [apply same_credentials_refl | eauto]. }
  assert (Hset : forall t0 t1, KEV_Catalog s = Some t0 -> columns t1 = columns t0 ->
            same_credentials s (with_catalog s t1) /\
            (forall t, KEV_Catalog s = Some t ->
               exists t', KEV_Catalog (with_catalog s t1) = Some t' /\
                          columns t' = columns t)).
  { intros t0 t1 H0 E. split; [repeat split |].
    intros t Ht. exists t1. split; [reflexivity | congruence]. }
  intros [[cols ->] | [-> | (cols & values & ->)]]; unfold db_execute;
    cbn [bind_params].
  - cbn [existsb run_statement]. destruct (KEV_Catalog s) as [t0|] eqn:Ht;
      cbn [snd]; rewrite ?Ht; [exact Hid |].
    split; [repeat split |]. intros t Et. discriminate.
  - cbn [existsb run_statement]. destruct (KEV_Catalog s) as [t0|] eqn:Ht;
      cbn [snd]; rewrite ?Ht; [now apply (Hset t0) | exact Hid].
  - destruct (existsb is_undefined values); [exact Hid |].
    cbn [run_statement]. destruct (KEV_Catalog s) as [t0|] eqn:Ht;
      [| cbn [snd]; rewrite ?Ht; exact Hid].
    destruct (negb _); [cbn [snd]; rewrite ?Ht; exact Hid |].
    destruct (forallb _ _); [| cbn [snd]; rewrite ?Ht; exact Hid].
    cbn [snd]. now apply (Hset t0).
Qed.

Lemma execute_catalog_effect (st : statement) (w w' : world) (r : string + result) :
  (exists cols, st = CreateKevTable cols) \/ st = TruncateKev \/
  (exists cols values, st = InsertKev cols values) ->
  execute st w = (r, w') ->
  same_credentials (db w) (db w') /\
  (forall t, KEV_Catalog (db w) = Some t ->
     exists t', KEV_Catalog (db w') = Some t' /\ columns t' = columns t).
Proof.
  intros Hst. rewrite execute_spec. intros [= _ <-]. cbn [db].
  now apply catalog_statement_effect.
Qed.

Lemma insert_records_effect (headers : list string) (records : list csv_record) :
  forall (w w' : world) (r : string + unit),
    insert_records headers records w = (r, w') ->
    same_credentials (db w) (db w') /\
    (forall t, KEV_Catalog (db w) = Some t ->
       exists t', KEV_Catalog (db w') = Some t' /\ columns t' = columns t).
Proof.
  induction records as [|record rest IH]; intros w w' r H.
  - injection H as _ <-. split; [apply same_credentials_refl |]. eauto.
  - cbn [insert_records] in H. unfold bind in H.
    destruct (execute (insert_statement headers record) w) as [[e | x] w1] eqn:H1.
    + injection H as _ <-.
      apply execute_catalog_effect in H1; [exact H1 |]. right. right.
      unfold insert_statement. eauto.
    + apply execute_catalog_effect in H1 as [Hc1 Hk1];
        [| right; right; unfold insert_statement; eauto].
      apply IH in H as [Hc2 Hk2]. split.
      * eapply same_credentials_trans; eassumption.
      * intros t Ht. destruct (Hk1 t Ht) as (t1 & Ht1 & E1).
        destruct (Hk2 t1 Ht1) as (t2 & Ht2 & E2). exists t2. split; congruence.
Qed.

(** Whatever the feed and however the refresh ends, it leaves the
    credentials alone and keeps the columns of a table that was there. *)
Lemma refresh_effect (f : feed) (w w' : world) (r : string + update_result) :
  updateKEVCatalogFromCSV f w = (r, w') ->
  same_credentials (db w) (db w') /\
  (forall t, KEV_Catalog (db w) = Some t ->
     exists t', KEV_Catalog (db w') = Some t' /\ columns t' = columns t).
Proof.
  assert (Hid : forall v : world, same_credentials (db v) (db v) /\
            (forall t, KEV_Catalog (db v) = Some t ->
               exists t', KEV_Catalog (db v) = Some t' /\ columns t' = columns t)).
  { intros v. split; [apply same_credentials_refl | eauto]. }
  destruct f as [msg | [|first rest]]; cbn [updateKEVCatalogFromCSV].
  - intros [= _ <-]. apply Hid.
  - intros [= _ <-]. apply Hid.
  - unfold bind.
    destruct (execute (CreateKevTable _) w) as [[e | x1] w1] eqn:H1.
    { intros [= _ <-]. apply execute_catalog_effect in H1; eauto. }
    apply execute_catalog_effect in H1 as [Hc1 Hk1]; [| eauto].
    destruct (execute TruncateKev w1) as [[e | x2] w2] eqn:H2.
    { intros [= _ <-]. apply execute_catalog_effect in H2 as [Hc2 Hk2]; [| auto].
      split; [eapply same_credentials_trans; eassumption |].
      intros t Ht. destruct (Hk1 t Ht) as (t1 & Ht1 & E1).
      destruct (Hk2 t1 Ht1) as (t2 & Ht2 & E2). exists t2. split; congruence. }
    apply execute_catalog_effect in H2 as [Hc2 Hk2]; [| auto].
    destruct (insert_records _ _ w2) as [[e | x3] w3] eqn:H3;
      intros [= _ <-]; apply insert_records_effect in H3 as [Hc3 Hk3];
      (split;
       [eapply same_credentials_trans; [| eassumption];
        eapply same_credentials_trans; eassumption
       | intros t Ht; destruct (Hk1 t Ht) as (t1 & Ht1 & E1);
         destruct (Hk2 t1 Ht1) as (t2 & Ht2 & E2);
         destruct (Hk3 t2 Ht2) as (t3 & Ht3 & E3); exists t3; split; congruence]).
Qed.

End RefreshOutcomes.

(** A refresh never touches the credential table, the clock or the id
    counter, whatever the feed holds and whether it succeeds or throws. *)
Theorem refresh_keeps_credentials (f : feed) (w : world) :
  same_credentials (db w) (db (snd (updateKEVCatalogFromCSV f w))).
Proof.
  destruct (updateKEVCatalogFromCSV f w) as [r w'] eqn:H.
  now apply refresh_effect in H.
Qed.

(** Schema drift: once the catalog table exists, no refresh changes its
    columns; the header of a later feed does not reshape it. *)
Theorem refresh_keeps_columns (f : feed) (w : world) (t : kev_table) :
  KEV_Catalog (db w) = Some t ->
  exists t', KEV_Catalog (db (snd (updateKEVCatalogFromCSV f w))) = Some t' /\
             columns t' = columns t.
Proof.
  intros Ht. destruct (updateKEVCatalogFromCSV f w) as [r w'] eqn:H.
  apply refresh_effect in H as [_ Hk]. now apply Hk.
Qed.

Lemma refresh_keeps_columns_witness :
  exists t', KEV_Catalog (db (snd (updateKEVCatalogFromCSV (FeedRecords sample_records)
                                     drifted_world))) = Some t' /\
             columns t' = [("cveID", TEXT)].
Proof.
  apply (refresh_keeps_columns (FeedRecords sample_records) drifted_world
           {| columns := [("cveID", TEXT)];
              rows := [[("cveID", Some "CVE-2020-0001")]] |}).
  reflexivity.
Defined.

Section RefreshTable.

Lemma columns_after_cover (s : store) (first : csv_record) :
  accepts_headers s (Object_keys first) ->
  forallb (has_column {| columns := columns_after s first; rows := [] |})
          (Object_keys first) = true.
Proof.
  unfold accepts_headers, columns_after.
  destruct (KEV_Catalog s) as [t|]; [trivial | intros _; apply table_columns_cover].
Qed.

(** The first two statements of a refresh leave an empty table with the
    columns of [columns_after]. *)
Lemma refresh_prefix (first : csv_record) (w : world) :
  exists w2,
    bind (execute (CreateKevTable (table_columns first)))
         (fun _ => execute TruncateKev) w = (inr Done, w2) /\
    KEV_Catalog (db w2) = Some {| columns := columns_after (db w) first; rows := [] |}.
Proof.
  unfold bind, execute, db_execute, columns_after. simpl.
  destruct (KEV_Catalog (db w)) as [t|] eqn:Ht; simpl; rewrite ?Ht; simpl;
    eexists; split; reflexivity.
Qed.

(** In the store as modelled, a refresh whose columns the table has ends
    with the table of [catalog_after]. *)
Lemma refresh_table (records : list csv_record) (first : csv_record) (w : world) :
  head records = Some first ->
  accepts_headers (db w) (Object_keys first) ->
  exists w',
    updateKEVCatalogFromCSV (FeedRecords records) w =
      (inr {| success := true; recordCount := length records |}, w') /\
    KEV_Catalog (db w') = Some (catalog_after (db w) first records).
Proof.
  intros Hhead Hacc. destruct records as [|first' rest]; [discriminate |].
  injection Hhead as ->.
  destruct (refresh_prefix first w) as (w2 & Hrun2 & Hcat2).
  destruct (insert_records_rows (Object_keys first) (first :: rest) w2 _ Hcat2
              (columns_after_cover _ _ Hacc)) as (w' & Hrun & Hcat & _).
  exists w'. split; [| exact Hcat].
  unfold updateKEVCatalogFromCSV. unfold bind in *.
  destruct (execute (CreateKevTable (table_columns first)) w) as [[e | r1] w1];
    [discriminate |].
  rewrite Hrun2, Hrun. reflexivity.
Qed.

(** What a successful refresh tells about where it started and ended. *)
Lemma refresh_success_inv (records : list csv_record) (w w' : world)
  (res : update_result) :
  updateKEVCatalogFromCSV (FeedRecords records) w = (inr res, w') ->
  exists first,
    head records = Some first /\
    accepts_headers (db w) (Object_keys first) /\
    res = {| success := true; recordCount := length records |} /\
    KEV_Catalog (db w') = Some (catalog_after (db w) first records).
Proof.
  intros H. destruct records as [|first rest]; [discriminate |].
  exists first. split; [reflexivity |].
  assert (Hacc : accepts_headers (db w) (Object_keys first)).
  { unfold accepts_headers. destruct (KEV_Catalog (db w)) as [t|] eqn:Ht; [| exact I].
    destruct (forallb (has_column t) (Object_keys first)) eqn:Hc; [reflexivity |].
    destruct (refresh_rejected (first :: rest) first w t eq_refl Ht Hc)
      as (msg & w0 & Hrej).
    rewrite Hrej in H. discriminate. }
  split; [exact Hacc |].
  destruct (refresh_table (first :: rest) first w eq_refl Hacc) as (w0 & Hok & Hcat).
  rewrite Hok in H. injection H as <- <-. split; [reflexivity | exact Hcat].
Qed.

End RefreshTable.





(** Refreshing again with the same feed succeeds again and gives the same
    table: the rows are replaced, not piled up. *)
Theorem refresh_twice (records : list csv_record) (w w1 : world)
  (res : update_result) :
  updateKEVCatalogFromCSV (FeedRecords records) w = (inr res, w1) ->
  exists w2,
    updateKEVCatalogFromCSV (FeedRecords records) w1 = (inr res, w2) /\
    KEV_Catalog (db w2) = KEV_Catalog (db w1).
Proof.
  intros H. apply refresh_success_inv in H as (first & Hhead & Hacc & -> & Hcat).
  assert (Hcols : columns_after (db w1) first = columns_after (db w) first).
  { unfold columns_after at 1. now rewrite Hcat. }
  assert (Hacc1 : accepts_headers (db w1) (Object_keys first)).
  { unfold accepts_headers. rewrite Hcat.
    exact (columns_after_cover _ _ Hacc). }
  destruct (refresh_table records first w1 Hhead Hacc1) as (w2 & Hok & Hcat2).
  exists w2. split; [exact Hok |].
  rewrite Hcat2, Hcat. unfold catalog_after. now rewrite Hcols.
Qed.

Lemma refresh_twice_witness :
  let w1 := snd (updateKEVCatalogFromCSV (FeedRecords sample_records) fresh_world) in
  exists w2,
    updateKEVCatalogFromCSV (FeedRecords sample_records) w1 =
      (inr {| success := true; recordCount := 2 |}, w2) /\
    KEV_Catalog (db w2) = KEV_Catalog (db w1).
Proof.
  intros w1.
  apply (refresh_twice sample_records fresh_world w1
           {| success := true; recordCount := 2 |}).
  vm_compute. reflexivity.
Defined.

(** ** Refresh, then count *)

Section CountAfterRefresh.

Lemma assoc_map_fst {A B : Type} (F : string -> B) (k : string) (cols : list (string * A)) :
  assoc k (map (fun c => (fst c, F (fst c))) cols) =
    match assoc k cols with
    | Some _ => Some (F k)
    | None => None
    end.
Proof.
  induction cols as [|[k' a] cols IH]; simpl; [reflexivity |].
  destruct (String.eqb_spec k k') as [-> | _]; [reflexivity | exact IH].
Qed.

Lemma assoc_combine_map {B : Type} (G : string -> B) (k : string) (hs : list string) :
  In k hs -> assoc k (combine hs (map G hs)) = Some (G k).
Proof.
  induction hs as [|h hs IH]; simpl; [intros [] |].
  destruct (String.eqb_spec k h) as [-> | Hne]; [reflexivity |].
  intros [-> | Hin]; [contradiction | auto].
Qed.

Lemma has_column_of_forallb (t : kev_table) (hs : list string) (k : string) :
  forallb (has_column t) hs = true -> In k hs -> has_column t k = true.
Proof. intros H Hin. rewrite forallb_forall in H. auto. Qed.

(** The inserted row has a [cveID] exactly when the record has a non-empty
    one. *)
Lemma new_kev_row_has_cve (t : kev_table) (hs : list string) (record : csv_record) :
  has_column t "cveID" = true -> In "cveID" hs ->
  non_null "cveID" (new_kev_row t hs (insert_values hs record)) = has_cve record.
Proof.
  intros Hc Hin. unfold non_null, new_kev_row, has_cve.
  rewrite (assoc_map_fst
             (fun c => match assoc c (combine hs (insert_values hs record)) with
                       | Some p => param_value p
                       | None => None
                       end)).
  unfold has_column in Hc. destruct (assoc "cveID" (columns t)); [| discriminate].
  unfold insert_values.
  rewrite (assoc_combine_map (fun h => or_null (assoc h record)) "cveID" hs Hin).
  destruct (assoc "cveID" record) as [v|]; [| reflexivity].
  destruct v; reflexivity.
Qed.

Lemma filter_map_length {A B : Type} (p : B -> bool) (q : A -> bool) (f : A -> B)
  (l : list A) :
  (forall x, p (f x) = q x) ->
  length (List.filter p (map f l)) = length (List.filter q l).
Proof.
  intros H. induction l as [|x l IH]; simpl; [reflexivity |].
  rewrite H. destruct (q x); simpl; now rewrite IH.
Qed.

End CountAfterRefresh.

(** After a refresh that succeeds on a feed with a [cveID] column, the count
    endpoint reports the number of records of the feed that carry a
    non-empty [cveID]: all of them when none is empty. *)
Theorem count_after_refresh (records : list csv_record) (first : csv_record)
  (w w1 w2 : world) (res : update_result) (req req' : request) :
  updateKEVCatalogFromCSV (FeedRecords records) w = (inr res, w1) ->
  head records = Some first ->
  In "cveID" (Object_keys first) ->
  verifyApiKey req w1 = (Next req', w2) ->
  fst (get_count req w1) = count_response (length (List.filter has_cve records)) /\
  (forallb has_cve records = true ->
   fst (get_count req w1) = count_response (recordCount res)).
Proof.
  intros Hrun Hhead Hin Hv.
  apply refresh_success_inv in Hrun as (first' & Hhead' & Hacc & -> & Hcat).
  assert (first' = first) by congruence. subst first'.
  pose proof (columns_after_cover _ _ Hacc) as Hcover.
  pose proof (has_column_of_forallb _ _ "cveID" Hcover Hin) as Hcve.
  assert (Hcount : fst (get_count req w1) =
                   count_response (length (List.filter has_cve records))).
  { unfold get_count, protected. rewrite Hv.
    apply verifyApiKey_next in Hv as (k & n & row & _ & _ & _ & _ & ->).
    rewrite (count_handler_spec _ _ (catalog_after (db w) first records));
      [| exact Hcat | exact Hcve].
    cbn [fst]. f_equal. unfold catalog_after. cbn [rows].
    apply filter_map_length. intros record.
    now apply new_kev_row_has_cve. }
  split; [exact Hcount |].
  intros Hall. rewrite Hcount. cbn [recordCount]. f_equal. f_equal.
  apply filter_all. apply List.Forall_forall.
  exact (proj1 (List.forallb_forall has_cve records) Hall).
Qed.

Lemma count_after_refresh_witness :
  let req := request_of [("x-api-key", zero_key); ("app-name", "App1")] [] [] in
  let w1 := snd (updateKEVCatalogFromCSV (FeedRecords sample_records)
                   keyed_world) in
  fst (get_count req w1) = count_response 2.
Proof.
  intros req w1.
  destruct (count_after_refresh sample_records
              [("cveID", "CVE-2021-0001"); ("vendorProject", "Acme"); ("notes", "")]
              keyed_world w1 (snd (verifyApiKey req w1))
              {| success := true; recordCount := 2 |}
              req (set_application req app1_key)) as [H _].
  - vm_compute. reflexivity.
  - reflexivity.
  - now left.
  - vm_compute. reflexivity.
  - exact H.
Defined.

(** ** The auth gate, beyond C4, C5, C6 and C10 *)

Section GateEffects.

(** The three ways the gate can end, with the world each leaves. *)
Lemma verifyApiKey_outcomes (req : request) (w : world) :
  (exists res, verifyApiKey req w = (Rejected res, w) /\ status res = 401) \/
  (exists res k n,
     verifyApiKey req w = (Rejected res, logged w [SelectActiveKey (PString k) n] (db w)) /\
     (status res = 401 \/ status res = 500)) \/
  (exists k n row,
     presents_key req k /\ claimed_name req = Some n /\ resolves (db w) k n row /\
     verifyApiKey req w =
       (Next (set_application req row),
        logged w [SelectActiveKey (PString k) (PString n);
                  TouchKey (PString k) (PString n)]
               (touched (db w) k n))).
Proof.
  destruct (JsString.falsy (presented_key req)) eqn:Hf.
  { left. eexists. split; [now apply verifyApiKey_no_key | reflexivity]. }
  apply not_falsy_presents_key in Hf as [k Hk].
  destruct (claimed_name req) as [n|] eqn:Hn.
  2:{ right. left. eexists. exists k, PUndefined.
      split; [now apply verifyApiKey_no_name | now right]. }
  destruct (verifyApiKey req w) as [[res | req'] w'] eqn:Hv.
  - right. left. rewrite (verifyApiKey_lookup _ _ k n) in Hv by assumption.
    destruct (List.filter _ _) as [|row more]; [| discriminate].
    injection Hv as <- <-. eexists. exists k, (PString n).
    split; [reflexivity | now left].
  - right. right.
    apply verifyApiKey_next in Hv as (k' & n' & row & Hk' & Hn' & Hr & -> & ->).
    exists k', n', row.
    split; [exact Hk' |]. split; [congruence |]. split; [exact Hr | reflexivity].
Qed.

(** The record attached is the first row of the lookup. *)
Lemma verifyApiKey_next_first (req req' : request) (w w' : world) :
  verifyApiKey req w = (Next req', w') ->
  exists k n row more,
    presents_key req k /\ claimed_name req = Some n /\
    List.filter (active_key_and_name (collation (db w)) (PString k) (PString n))
                (api_keys (db w)) = row :: more /\
    req' = set_application req row /\
    w' = logged w [SelectActiveKey (PString k) (PString n);
                   TouchKey (PString k) (PString n)]
                (touched (db w) k n).
Proof.
  intros H.
  destruct (JsString.falsy (presented_key req)) eqn:Hf.
  { rewrite verifyApiKey_no_key in H by assumption. discriminate. }
  apply not_falsy_presents_key in Hf as [k Hk].
  destruct (claimed_name req) as [n|] eqn:Hn.
  2:{ rewrite (verifyApiKey_no_name _ _ k) in H by assumption. discriminate. }
  rewrite (verifyApiKey_lookup _ _ k n) in H by assumption.
  destruct (List.filter _ _) as [|row more] eqn:Hrows; [discriminate |].
  injection H as <- <-. exists k, n, row, more. auto.
Qed.

Lemma touched_identities (s : store) (k n : string) :
  map credential_identity (api_keys (touched s k n)) =
  map credential_identity (api_keys s).
Proof.
  unfold touched. cbn [api_keys with_keys]. rewrite map_map.
  apply map_ext. intros r. now destruct (key_and_name _ _ _ r).
Qed.

End GateEffects.

(** A request the gate rejects never reaches the handler behind it, whatever
    that handler is, and leaves the store exactly as it was: no stamp is
    written for a failed attempt.  The answer is a 401 or a 500. *)
Theorem gate_rejection_is_final
  (handler : request -> world -> response * world)
  (req : request) (w w' : world) (res : response) :
  verifyApiKey req w = (Rejected res, w') ->
  protected handler req w = (res, w') /\
  db w' = db w /\
  (status res = 401 \/ status res = 500).
Proof.
  intros H. split; [unfold protected; now rewrite H |].
  destruct (verifyApiKey_outcomes req w)
    as [(res0 & Hv & Hs) | [(res0 & k & n & Hv & Hs) | (k & n & row & _ & _ & _ & Hv)]];
    rewrite Hv in H; [| | discriminate]; injection H as <- <-; auto.
Qed.

Lemma gate_rejection_is_final_witness :
  let req := request_of [("x-api-key", zero_key); ("app-name", "Other")] [] [] in
  protected (update_kev_handler (FeedRecords sample_records)) req keyed_world =
    (error_response 401 "Invalid API key",
     logged keyed_world
       [SelectActiveKey (PString zero_key) (PString "Other")] (db keyed_world)).
Proof.
  intros req.
  apply (gate_rejection_is_final
           (update_kev_handler (FeedRecords sample_records)) req keyed_world).
  vm_compute. reflexivity.
Defined.

(** The gate only ever writes [last_used]: whatever the request and the
    outcome, the store keeps the same records in the same order with the
    same ids, keys, names, creation stamps and active flags, and the same
    catalog table. *)
Theorem gate_only_stamps (req : request) (w : world) :
  map credential_identity (api_keys (db (snd (verifyApiKey req w)))) =
    map credential_identity (api_keys (db w)) /\
  KEV_Catalog (db (snd (verifyApiKey req w))) = KEV_Catalog (db w) /\
  next_id (db (snd (verifyApiKey req w))) = next_id (db w).
Proof.
  destruct (verifyApiKey_outcomes req w)
    as [(res0 & Hv & _) | [(res0 & k & n & Hv & _) | (k & n & row & _ & _ & _ & Hv)]];
    rewrite Hv; cbn [snd logged db]; auto.
  split; [apply touched_identities | split; reflexivity].
Qed.

Section GateAgain.

Lemma active_key_and_name_touch (c : Collation) (k n : param) (now : nat)
  (r : credential) :
  active_key_and_name c k n (touch now r) = active_key_and_name c k n r.
Proof. reflexivity. Qed.

Lemma filter_map_commute {A : Type} (p : A -> bool) (f : A -> A) (l : list A) :
  (forall x, p (f x) = p x) ->
  List.filter p (map f l) = map f (List.filter p l).
Proof.
  intros H. induction l as [|x l IH]; simpl; [reflexivity |].
  rewrite H. destruct (p x); simpl; now rewrite IH.
Qed.

Lemma touched_lookup (s : store) (k n : string) :
  List.filter (active_key_and_name (collation (touched s k n)) (PString k) (PString n))
              (api_keys (touched s k n)) =
  map (touch (clock s))
      (List.filter (active_key_and_name (collation s) (PString k) (PString n))
                   (api_keys s)).
Proof.
  unfold touched. cbn [collation api_keys with_keys].
  rewrite filter_map_commute by (intros r; now destruct (key_and_name _ _ _ r)).
  induction (api_keys s) as [|r l IH]; simpl; [reflexivity |].
  destruct (active_key_and_name _ _ _ r) eqn:Ha; simpl; [| exact IH].
  rewrite IH. f_equal.
  unfold active_key_and_name in Ha. unfold key_and_name.
  apply andb_true_iff in Ha as [Ha Hn]. apply andb_true_iff in Ha as [Hk _].
  now rewrite Hk, Hn.
Qed.

End GateAgain.

(** Authenticating does not wear a key out: the request that got through
    gets through again from the world it left, and finds the same record,
    now carrying the stamp of the first pass. *)
Theorem gate_admits_again (req req' : request) (w w' : world) :
  verifyApiKey req w = (Next req', w') ->
  exists row,
    application req' = Some row /\
    fst (verifyApiKey req w') =
      Next (set_application req (touch (clock (db w)) row)).
Proof.
  intros H.
  apply verifyApiKey_next_first in H as (k & n & row & more & Hk & Hn & Hrows & -> & ->).
  exists row. split; [reflexivity |].
  rewrite (verifyApiKey_lookup _ _ k n) by assumption.
  cbn [logged db]. rewrite touched_lookup, Hrows. reflexivity.
Qed.

Lemma gate_admits_again_witness :
  let req := request_of [("x-api-key", zero_key); ("app-name", "App1")] [] [] in
  exists row,
    application (set_application req app1_key) = Some row /\
    fst (verifyApiKey req (snd (verifyApiKey req keyed_world))) =
      Next (set_application req (touch 10 row)).
Proof.
  intros req.
  apply (gate_admits_again req (set_application req app1_key) keyed_world
           (snd (verifyApiKey req keyed_world))).
  vm_compute. reflexivity.
Defined.

Section GateInputs.

Lemma or_else_truthy (s : string) (b : option string) :
  s <> "" -> JsString.or_else (Some s) b = Some s.
Proof. destruct s; [contradiction | reflexivity]. Qed.

(** The gate looks at nothing in a request but the key it presents and the
    name it claims. *)
Lemma verifyApiKey_same_inputs (req1 req2 : request) (w : world) :
  presented_key req1 = presented_key req2 ->
  claimed_name req1 = claimed_name req2 ->
  decision (fst (verifyApiKey req1 w)) = decision (fst (verifyApiKey req2 w)) /\
  snd (verifyApiKey req1 w) = snd (verifyApiKey req2 w).
Proof.
  intros Hk Hn.
  destruct (JsString.falsy (presented_key req1)) eqn:Hf.
  { rewrite !verifyApiKey_no_key by congruence. split; reflexivity. }
  pose proof Hf as Hf2. rewrite Hk in Hf2.
  apply not_falsy_presents_key in Hf as [k Hk1].
  assert (Hk2 : presents_key req2 k).
  { destruct Hk1 as [E Hne]. split; [congruence | exact Hne]. }
  destruct (claimed_name req1) as [n|] eqn:Hn1.
  - rewrite (verifyApiKey_lookup req1 w k n), (verifyApiKey_lookup req2 w k n)
      by (assumption || congruence).
    destruct (List.filter _ _) as [|row more]; split; reflexivity.
  - rewrite (verifyApiKey_no_name req1 w k), (verifyApiKey_no_name req2 w k)
      by (assumption || congruence).
    split; reflexivity.
Qed.

End GateInputs.

(** Headers win: when the [x-api-key] and [app-name] headers are both there
    and not empty, the gate decides by them alone, and nothing put in the
    query string or the body changes its decision or what it does to the
    store. *)
Theorem gate_headers_take_precedence (req1 req2 : request) (w : world) (k n : string) :
  k <> "" -> n <> "" ->
  headers req1 !! "x-api-key" = Some k -> headers req1 !! "app-name" = Some n ->
  headers req2 !! "x-api-key" = Some k -> headers req2 !! "app-name" = Some n ->
  presents_key req1 k /\ claimed_name req1 = Some n /\
  decision (fst (verifyApiKey req1 w)) = decision (fst (verifyApiKey req2 w)) /\
  snd (verifyApiKey req1 w) = snd (verifyApiKey req2 w).
Proof.
  intros Hk Hn Hk1 Hn1 Hk2 Hn2.
  assert (P1 : presented_key req1 = Some k)
    by (unfold presented_key; rewrite Hk1; now apply or_else_truthy).
  assert (P2 : presented_key req2 = Some k)
    by (unfold presented_key; rewrite Hk2; now apply or_else_truthy).
  assert (C1 : claimed_name req1 = Some n)
    by (unfold claimed_name; rewrite Hn1, (or_else_truthy n _ Hn);
        now apply or_else_truthy).
  assert (C2 : claimed_name req2 = Some n)
    by (unfold claimed_name; rewrite Hn2, (or_else_truthy n _ Hn);
        now apply or_else_truthy).
  split; [split; assumption |]. split; [exact C1 |].
  apply verifyApiKey_same_inputs; congruence.
Qed.

Lemma gate_headers_take_precedence_witness :
  let req1 := request_of [("x-api-key", zero_key); ("app-name", "App1")] [] [] in
  let req2 := request_of [("x-api-key", zero_key); ("app-name", "App1")]
                [("api_key", "ffff"); ("app_name", "Other")] [("app_name", "Third")] in
  decision (fst (verifyApiKey req1 keyed_world)) =
    decision (fst (verifyApiKey req2 keyed_world)).
Proof.
  intros req1 req2.
  destruct (gate_headers_take_precedence req1 req2 keyed_world zero_key "App1")
    as (_ & _ & H & _);
    [vm_compute; discriminate | discriminate | vm_compute; reflexivity ..
    | exact H].
Defined.

(** ** The credential table keeps its keys apart *)

Section UniqueKeys.

Lemma coll_eqb_refl (c : Collation) (a : string) : coll_eqb c a a = true.
Proof. destruct c; simpl; apply String.eqb_refl. Qed.

Lemma coll_eqb_sym (c : Collation) (a b : string) : coll_eqb c a b = coll_eqb c b a.
Proof. destruct c; simpl; apply String.eqb_sym. Qed.

Lemma coll_eqb_trans (c : Collation) (a b d : string) :
  coll_eqb c a b = true -> coll_eqb c b d = true -> coll_eqb c a d = true.
Proof.
  destruct c; simpl; rewrite !String.eqb_eq; congruence.
Qed.

Lemma pairs_map {A : Type} (R : A -> A -> Prop) (f : A -> A) (l : list A) :
  (forall a b, R a b -> R (f a) (f b)) ->
  ForallOrdPairs R l -> ForallOrdPairs R (map f l).
Proof.
  intros Hf. induction 1 as [|a l Ha _ IH]; simpl; constructor; [| exact IH].
  apply List.Forall_forall. intros y Hy. apply in_map_iff in Hy as (b & <- & Hb).
  apply Hf. revert b Hb. now apply List.Forall_forall.
Qed.

Lemma pairs_snoc {A : Type} (R : A -> A -> Prop) (l : list A) (x : A) :
  ForallOrdPairs R l -> (forall a, In a l -> R a x) -> ForallOrdPairs R (l ++ [x]).
Proof.
  induction 1 as [|a l Ha _ IH]; simpl; intros Hx.
  - constructor; [constructor | constructor].
  - constructor.
    + apply List.Forall_forall. intros y Hy. apply in_app_iff in Hy as [Hy | [<- | []]].
      * revert y Hy. now apply List.Forall_forall.
      * apply Hx. now left.
    + apply IH. intros b Hb. apply Hx. now right.
Qed.

Lemma run_statement_unique (st : statement) (s : store) :
  unique_keys s -> unique_keys (snd (run_statement st s)).
Proof.
  intros H. destruct st as [cols | | cols values | k n | k n | k n | ]; simpl.
  - destruct (KEV_Catalog s); assumption.
  - destruct (KEV_Catalog s); assumption.
  - destruct (KEV_Catalog s); [| assumption].
    destruct (negb _); [assumption |]. destruct (forallb _ _); assumption.
  - assumption.
  - unfold unique_keys. simpl. apply pairs_map; [| exact H].
    intros a b Hab.
    now destruct (key_and_name _ _ _ a), (key_and_name _ _ _ b).
  - destruct k as [key | |]; try assumption.
    destruct n as [name | |]; try assumption.
    destruct (_ <? _)%nat; [assumption |].
    destruct (_ <? _)%nat; [assumption |].
    destruct (existsb _ _) eqn:Hex; [assumption |].
    unfold unique_keys. simpl. apply pairs_snoc; [exact H |].
    intros a Ha. simpl.
    destruct (coll_eqb (collation s) (api_key a) key) eqn:E; [| reflexivity].
    assert (Hin : existsb (fun r => coll_eqb (collation s) (api_key r) key)
                          (api_keys s) = true)
      by (apply existsb_exists; eauto).
    congruence.
  - destruct (KEV_Catalog s); [| assumption]. destruct (has_column _ _); assumption.
Qed.

Lemma db_execute_unique (st : statement) (s : store) :
  unique_keys s -> unique_keys (snd (db_execute st s)).
Proof.
  intros H. unfold db_execute. destruct (existsb _ _); [assumption |].
  now apply run_statement_unique.
Qed.

End UniqueKeys.

(** The UNIQUE constraint holds for good: whatever statement the program
    sends, a credential table whose keys are pairwise different (under the
    collation) stays so. *)
Theorem db_execute_keeps_keys_unique (st : statement) (s : store) :
  unique_keys s -> unique_keys (snd (db_execute st s)).
Proof. apply db_execute_unique. Qed.

Lemma db_execute_keeps_keys_unique_witness :
  unique_keys (snd (db_execute (InsertKey (PString "abc") (PString "App2"))
                      (sample_store CaseInsensitive))).
Proof.
  apply db_execute_keeps_keys_unique.
  unfold unique_keys. simpl. constructor; [constructor | constructor].
Defined.

Section OneRow.

Lemma no_second_match (c : Collation) (k n : string) (a : credential)
  (l : list credential) :
  coll_eqb c (api_key a) k = true ->
  Forall (fun b => coll_eqb c (api_key a) (api_key b) = false) l ->
  List.filter (active_key_and_name c (PString k) (PString n)) l = [].
Proof.
  intros Ha. induction 1 as [|b l Hb _ IH]; simpl; [reflexivity |].
  destruct (active_key_and_name c (PString k) (PString n) b) eqn:Hp; [| exact IH].
  exfalso. unfold active_key_and_name in Hp. simpl in Hp.
  apply andb_true_iff in Hp as [Hp _]. apply andb_true_iff in Hp as [Hkb _].
  rewrite (coll_eqb_trans c (api_key a) k (api_key b)) in Hb;
    [discriminate | exact Ha | now rewrite coll_eqb_sym].
Qed.

(** Under the UNIQUE constraint the SELECT of the gate finds one row at
    most. *)
Lemma lookup_one_row (c : Collation) (k n : string) (l : list credential) :
  ForallOrdPairs (fun a b => coll_eqb c (api_key a) (api_key b) = false) l ->
  length (List.filter (active_key_and_name c (PString k) (PString n)) l) <= 1.
Proof.
  induction 1 as [|a l Ha _ IH]; simpl; [lia |].
  destruct (active_key_and_name c (PString k) (PString n) a) eqn:Hp; [| exact IH].
  unfold active_key_and_name in Hp. simpl in Hp.
  apply andb_true_iff in Hp as [Hp _]. apply andb_true_iff in Hp as [Hka _].
  simpl. now rewrite (no_second_match c k n a l Hka Ha).
Qed.

End OneRow.

(** With keys kept apart, the gate is unambiguous: for a request it lets
    through, the SELECT returned exactly one row, the record attached to the
    request, and every stored record that carries the presented key,
    whatever its name or active flag, is that record. *)
Theorem gate_attaches_the_only_key (req req' : request) (w w' : world) (k : string) :
  unique_keys (db w) ->
  presents_key req k ->
  verifyApiKey req w = (Next req', w') ->
  exists row,
    application req' = Some row /\
    fst (db_execute (SelectActiveKey (PString k) (to_param (claimed_name req))) (db w)) =
      inr (KeyRows [row]) /\
    (forall r, In r (api_keys (db w)) ->
       coll_eqb (collation (db w)) (api_key r) k = true -> r = row).
Proof.
  intros Hu Hk Hv.
  apply verifyApiKey_next_first in Hv
    as (k' & n & row & more & Hk' & Hn & Hrows & -> & _).
  rewrite <- (presents_key_unique _ _ _ Hk Hk') in *. clear Hk'.
  exists row. split; [reflexivity |].
  pose proof (lookup_one_row (collation (db w)) k n (api_keys (db w)) Hu) as Hone.
  rewrite Hrows in Hone. destruct more as [|x more]; [| simpl in Hone; lia].
  split.
  - rewrite Hn. unfold db_execute. simpl. now rewrite Hrows.
  - intros r Hin Hkey.
    assert (Hrow : resolves (db w) k n row).
    { apply active_key_and_name_resolves. rewrite Hrows. now left. }
    destruct Hrow as (Hin0 & Hkey0 & _).
    destruct (ForallOrdPairs_In Hu r row Hin Hin0) as [E | [E | E]]; [exact E | |];
      exfalso; simpl in E.
    + rewrite (coll_eqb_trans _ (api_key r) k (api_key row)) in E;
        [discriminate | exact Hkey | now rewrite coll_eqb_sym].
    + rewrite (coll_eqb_trans _ (api_key row) k (api_key r)) in E;
        [discriminate | exact Hkey0 | now rewrite coll_eqb_sym].
Qed.

Lemma gate_attaches_the_only_key_witness :
  let req := request_of [("x-api-key", zero_key); ("app-name", "app1")] [] [] in
  exists row,
    application (set_application req app1_key) = Some row /\
    fst (db_execute (SelectActiveKey (PString zero_key) (to_param (claimed_name req)))
           (db two_key_world)) = inr (KeyRows [row]) /\
    (forall r, In r (api_keys (db two_key_world)) ->
       coll_eqb (collation (db two_key_world)) (api_key r) zero_key = true -> r = row).
Proof.
  intros req.
  apply (gate_attaches_the_only_key req (set_application req app1_key) two_key_world
           (snd (verifyApiKey req two_key_world)) zero_key).
  - unfold unique_keys. simpl.
    constructor; [| constructor; [constructor | constructor]].
    constructor; [vm_compute; reflexivity | constructor].
  - split; [vm_compute; reflexivity | vm_compute; discriminate].
  - vm_compute. reflexivity.
Defined.

(** ** Key issuance, beyond C7 and C8 *)

(** The hexadecimal rendering of a buffer: two characters per byte, all of
    them lower-case hexadecimal digits, and no two buffers share a
    rendering. *)
Theorem toHex_faithful (a b : list Byte.byte) :
  String.length (toHex a) = 2 * length a /\
  JsString.all_chars is_lower_hex (toHex a) = true /\
  (toHex a = toHex b <-> a = b).
Proof.
  split; [apply toHex_length |]. split; [apply toHex_lower_hex |].
  split; [apply toHex_inj | now intros ->].
Qed.

(** Two calls in a row draw the next two blocks of 32 bytes of the random
    source, and return the same token only if those blocks are the same. *)
Theorem generateApiKey_twice (w : world) :
  let w1 := snd (generateApiKey w) in
  fst (generateApiKey w) = inr (next_token w) /\
  fst (generateApiKey w1) = inr (next_token w1) /\
  next_bytes w1 = map (random w) (seq (drawn w + 32) 32) /\
  drawn (snd (generateApiKey w1)) = drawn w + 64 /\
  (next_token w = next_token w1 <-> next_bytes w = next_bytes w1).
Proof.
  cbn zeta. rewrite generateApiKey_spec. cbn [fst snd].
  rewrite generateApiKey_spec. cbn [fst snd drawn].
  split; [reflexivity |]. split; [reflexivity |]. split; [reflexivity |].
  split; [lia |].
  unfold next_token. split; [apply toHex_inj | now intros ->].
Qed.

Section IssueEffects.

Lemma post_api_keys_store (req : request) (w : world) :
  db (snd (post_api_keys req w)) =
    snd (db_execute (InsertKey (PString (next_token w))
                       (to_param (headers req !! "app-name"))) (db w)) /\
  drawn (snd (post_api_keys req w)) = drawn w + 32.
Proof.
  rewrite post_api_keys_spec. cbn zeta.
  destruct (db_execute _ (db w)) as [[msg | r] s']; split; reflexivity.
Qed.

Lemma insert_key_effect (s : store) (k n : param) :
  let s' := snd (db_execute (InsertKey k n) s) in
  KEV_Catalog s' = KEV_Catalog s /\ collation s' = collation s /\ clock s' = clock s /\
  (s' = s \/
   exists key name, k = PString key /\ n = PString name /\
     api_keys s' = api_keys s ++ [issued s key name]).
Proof.
  cbn zeta. unfold db_execute.
  destruct (existsb _ _); [cbn [snd]; auto |].
  simpl. destruct k as [key| |]; try (cbn [snd]; now auto).
  destruct n as [name| |]; try (cbn [snd]; now auto).
  destruct (_ <? _)%nat; [cbn [snd]; now auto |].
  destruct (_ <? _)%nat; [cbn [snd]; now auto |].
  destruct (existsb _ _); [cbn [snd]; now auto |].
  cbn [snd]. repeat split. right. exists key, name. auto.
Qed.

End IssueEffects.

(** Issuing a key never disturbs what is there: the catalog table and every
    existing credential record stay as they are; the answer is 201 exactly
    when one record, active and holding the token of the answer, has been
    added at the end, and 500 exactly when nothing has been added. *)
Theorem post_api_keys_only_appends (req : request) (w : world) :
  let res := fst (post_api_keys req w) in
  let w' := snd (post_api_keys req w) in
  KEV_Catalog (db w') = KEV_Catalog (db w) /\
  ((status res = 500 /\ api_keys (db w') = api_keys (db w)) \/
   (exists name,
      res = created_response name (next_token w) /\
      api_keys (db w') = api_keys (db w) ++ [issued (db w) (next_token w) name])).
Proof.
  cbn zeta. rewrite post_api_keys_spec. cbn zeta.
  pose proof (insert_key_effect (db w) (PString (next_token w))
                (to_param (headers req !! "app-name"))) as He.
  cbn zeta in He.
  destruct (db_execute _ (db w)) as [[msg | r] s'] eqn:Hx; cbn [fst snd logged db] in *.
  - apply insert_key_rejected in Hx as ->. split; [reflexivity |]. now left.
  - destruct He as (Hcat & _ & _ & [-> | (key & name & Ek & En & Hkeys)]).
    + exfalso.
      destruct (headers req !! "app-name") as [name|] eqn:Hh; cbn [to_param] in Hx.
      * unfold db_execute in Hx. simpl in Hx.
        repeat match type of Hx with
               | context [if ?b then _ else _] => destruct b; [discriminate |]
               end.
        injection Hx as _ Hs.
        apply (f_equal next_id) in Hs. simpl in Hs. lia.
      * pose proof (insert_key_needs_name (db w) (PString (next_token w))) as Hu.
        rewrite Hx in Hu. discriminate.
    + split; [exact Hcat |]. right.
      injection Ek as <-. destruct (headers req !! "app-name") as [name'|];
        [| discriminate].
      injection En as <-. exists name'. split; [reflexivity | exact Hkeys].
Qed.

(** Round trip of a key: once [POST /api-keys] has answered 201 for an
    application, a request carrying the token of that answer in [x-api-key]
    and the same name in [app-name] passes the gate, and the record attached
    to it is the one just issued. *)
Theorem issued_key_authenticates (req req2 : request) (w : world) (name : string) :
  headers req !! "app-name" = Some name ->
  name <> "" ->
  String.length name <= 100 ->
  fresh_token (db w) (next_token w) ->
  headers req2 !! "x-api-key" = Some (next_token w) ->
  headers req2 !! "app-name" = Some name ->
  fst (post_api_keys req w) = created_response name (next_token w) /\
  fst (verifyApiKey req2 (snd (post_api_keys req w))) =
    Next (set_application req2 (issued (db w) (next_token w) name)).
Proof.
  intros Hh Hne Hlen Hfresh Hk2 Hn2.
  destruct (post_api_keys_created req w name Hh Hlen Hfresh) as [Hres Hkeys].
  split; [exact Hres |].
  destruct (post_api_keys_store req w) as [Hdb _].
  rewrite Hh in Hdb. cbn [to_param] in Hdb.
  rewrite (insert_key_accepted _ _ _ (next_token_length w) Hlen Hfresh) in Hdb.
  cbn [snd] in Hdb.
  assert (Htok : next_token w <> "").
  { intros E. pose proof (next_token_length w) as L. rewrite E in L. discriminate. }
  assert (P : presents_key req2 (next_token w)).
  { split; [| exact Htok]. unfold presented_key. rewrite Hk2.
    now apply or_else_truthy. }
  assert (C : claimed_name req2 = Some name).
  { unfold claimed_name. rewrite Hn2, (or_else_truthy name _ Hne).
    now apply or_else_truthy. }
  rewrite (verifyApiKey_lookup _ _ (next_token w) name P C), Hdb.
  cbn [collation api_keys with_keys].
  rewrite List.filter_app.
  assert (Hold : List.filter
                   (active_key_and_name (collation (db w)) (PString (next_token w))
                      (PString name)) (api_keys (db w)) = []).
  { unfold fresh_token in Hfresh. clear -Hfresh.
    induction (api_keys (db w)) as [|r l IH]; [reflexivity |].
    simpl in Hfresh. apply orb_false_iff in Hfresh as [Hr Hl].
    simpl. unfold active_key_and_name at 1. simpl. rewrite Hr. simpl. auto. }
  rewrite Hold. simpl. unfold active_key_and_name. simpl.
  rewrite !coll_eqb_refl. reflexivity.
Qed.

Lemma issued_key_authenticates_witness :
  let req := request_of [("app-name", "App9")] [] [] in
  let req2 := request_of [("x-api-key", next_token keyed_world); ("app-name", "App9")]
                [] [] in
  fst (verifyApiKey req2 (snd (post_api_keys req keyed_world))) =
    Next (set_application req2 (issued (db keyed_world) (next_token keyed_world) "App9")).
Proof.
  intros req req2.
  destruct (issued_key_authenticates req req2 keyed_world "App9") as [_ H];
    [vm_compute; reflexivity | discriminate | vm_compute; lia
    | vm_compute; reflexivity .. | exact H].
Defined.

(** ** The count endpoint, beyond C9 *)

Lemma filter_length_le {A : Type} (p : A -> bool) (l : list A) :
  length (List.filter p l) <= length l.
Proof.
  induction l as [|x l IH]; simpl; [lia |]. destruct (p x); simpl; lia.
Qed.

(** The count handler only reads.  Without a catalog table (no refresh has
    run yet), or with a table that has no [cveID] column, it answers 500;
    otherwise it answers the number of rows whose [cveID] is not NULL, which
    is never more than the number of rows. *)
Theorem count_handler_reads_only (req : request) (w : world) :
  db (snd (count_handler req w)) = db w /\
  match KEV_Catalog (db w) with
  | None => fst (count_handler req w) = error_response 500 no_table
  | Some t =>
      if has_column t "cveID"
      then exists n,
             fst (count_handler req w) = count_response n /\
             n = length (List.filter (non_null "cveID") (rows t)) /\
             n <= length (rows t)
      else status (fst (count_handler req w)) = 500
  end.
Proof.
  unfold count_handler, try_catch, bind, execute, db_execute. simpl.
  destruct (KEV_Catalog (db w)) as [t|]; [| split; reflexivity].
  destruct (has_column t "cveID"); simpl; split; try reflexivity.
  eexists. split; [reflexivity |]. split; [reflexivity | apply filter_length_le].
Qed.

(** ** Invariants of the store across the endpoints *)

Section EndpointInvariants.

Lemma same_credentials_invariants (s s' : store) :
  same_credentials s s' ->
  (stamps_in_past s -> stamps_in_past s') /\ (unique_keys s -> unique_keys s').
Proof.
  intros (Hc & Hk & _ & Ha). unfold stamps_in_past, unique_keys.
  rewrite Hc, Hk, Ha. auto.
Qed.

Lemma touched_is_update (s : store) (k n : string) :
  touched s k n = snd (db_execute (TouchKey (PString k) (PString n)) s).
Proof. reflexivity. Qed.

Lemma verifyApiKey_invariants (req : request) (w : world) :
  (stamps_in_past (db w) -> stamps_in_past (db (snd (verifyApiKey req w)))) /\
  (unique_keys (db w) -> unique_keys (db (snd (verifyApiKey req w)))).
Proof.
  destruct (verifyApiKey_outcomes req w)
    as [(res0 & Hv & _) | [(res0 & k & n & Hv & _) | (k & n & row & _ & _ & _ & Hv)]];
    rewrite Hv; cbn [snd logged db]; auto.
  rewrite touched_is_update. split; [apply db_execute_stamps | apply db_execute_unique].
Qed.

Lemma count_handler_invariants (req : request) (w : world) :
  db (snd (count_handler req w)) = db w.
Proof.
  unfold count_handler, try_catch, bind, execute, db_execute. simpl.
  destruct (KEV_Catalog (db w)) as [t|]; [| reflexivity].
  destruct (has_column t "cveID"); reflexivity.
Qed.

Lemma update_kev_handler_store (f : feed) (req : request) (w : world) :
  db (snd (update_kev_handler f req w)) = db (snd (updateKEVCatalogFromCSV f w)).
Proof.
  unfold update_kev_handler, try_catch, bind.
  destruct (updateKEVCatalogFromCSV f w) as [[e | r] w']; reflexivity.
Qed.

Lemma protected_invariants (P : store -> Prop)
  (handler : request -> world -> response * world) (req : request) (w : world) :
  (P (db w) -> P (db (snd (verifyApiKey req w)))) ->
  (forall req' w1, P (db w1) -> P (db (snd (handler req' w1)))) ->
  P (db w) -> P (db (snd (protected handler req w))).
Proof.
  intros Hgate Hh HP. unfold protected.
  specialize (Hgate HP).
  destruct (verifyApiKey req w) as [[res | req'] w1]; cbn [snd] in *; auto.
Qed.

End EndpointInvariants.

(** The three endpoints keep the credential table sound: starting from a
    store where no stamp lies ahead of the clock and the keys are pairwise
    different, each of [POST /api-keys], [GET /count] and [POST /update-kev]
    ends in such a store, whatever the request and the feed. *)
Theorem endpoints_keep_invariants (f : feed) (req : request) (w w' : world) :
  stamps_in_past (db w) -> unique_keys (db w) ->
  w' = snd (post_api_keys req w) \/ w' = snd (get_count req w) \/
  w' = snd (post_update_kev f req w) ->
  stamps_in_past (db w') /\ unique_keys (db w').
Proof.
  intros Hs Hu [-> | [-> | ->]].
  - destruct (post_api_keys_store req w) as [-> _].
    split; [now apply db_execute_stamps | now apply db_execute_unique].
  - unfold get_count. split.
    + apply (protected_invariants stamps_in_past); [apply verifyApiKey_invariants | | exact Hs].
      intros req' w1 H. now rewrite count_handler_invariants.
    + apply (protected_invariants unique_keys); [apply verifyApiKey_invariants | | exact Hu].
      intros req' w1 H. now rewrite count_handler_invariants.
  - unfold post_update_kev. split.
    + apply (protected_invariants stamps_in_past); [apply verifyApiKey_invariants | | exact Hs].
      intros req' w1 H. rewrite update_kev_handler_store.
      destruct (updateKEVCatalogFromCSV f w1) as [r w2] eqn:E.
      apply refresh_effect in E as [Hc _].
      now apply (same_credentials_invariants _ _ Hc).
    + apply (protected_invariants unique_keys); [apply verifyApiKey_invariants | | exact Hu].
      intros req' w1 H. rewrite update_kev_handler_store.
      destruct (updateKEVCatalogFromCSV f w1) as [r w2] eqn:E.
      apply refresh_effect in E as [Hc _].
      now apply (same_credentials_invariants _ _ Hc).
Qed.

Lemma endpoints_keep_invariants_witness :
  let req := request_of [("x-api-key", zero_key); ("app-name", "App1")] [] [] in
  let w' := snd (post_update_kev (FeedRecords sample_records) req keyed_world) in
  stamps_in_past (db w') /\ unique_keys (db w').
Proof.
  intros req w'.
  apply (endpoints_keep_invariants (FeedRecords sample_records) req keyed_world w').
  - intros r [<- | []]. split; [vm_compute; lia |].
    intros t [= <-]. vm_compute. lia.
  - unfold unique_keys. simpl. constructor; [constructor | constructor].
  - right. right. reflexivity.
Defined.

(** ** The trigger endpoint *)


